(** * Identity and family resolution of [clean.py]

    A shallow embedding of the resolution engine of [src/clean.py]: the
    evidence graph over tagged raw identifiers, its connected components,
    the labels written back on both record tables, and the family flags
    derived from them. *)

From stdpp Require Import base decidable option list relations gmap strings.
From Stdlib Require Import ZArith.

(** ** The part of networkx that [clean.py] calls

    [nx.Graph] keeps its nodes in a dict, read here in insertion order, and
    an adjacency per node.  The embedding keeps the node list and the list
    of edges added; the adjacency of a node is read off the edge list.
    [connected_components] and [_plain_bfs] follow the library's generator
    code, with lists in the place of Python sets.  The order of the nodes
    fixes the order of the components and so the label values; the facts
    below hold for any order. *)
Module Nx.
Section graph.
Context {V : Type} `{EqDecision V}.

Record Graph := mkGraph { nodes : list V; edges : list (V * V) }.

(** [nx.Graph()] *)
Definition empty : Graph := mkGraph [] [].

(** [G.add_node(n)]: a node already present keeps its place. *)
Definition add_node (G : Graph) (n : V) : Graph :=
  if decide (n ∈ nodes G) then G else mkGraph (nodes G ++ [n]) (edges G).

Definition add_nodes_from (G : Graph) (ns : list V) : Graph :=
  foldl add_node G ns.

(** [G.add_edge(u, v)]: both endpoints become nodes when they are not. *)
Definition add_edge (G : Graph) (e : V * V) : Graph :=
  let G' := add_node (add_node G e.1) e.2 in
  mkGraph (nodes G') (edges G' ++ [e]).

Definition add_edges_from (G : Graph) (es : list (V * V)) : Graph :=
  foldl add_edge G es.

(** [G.copy()]: values are immutable here, the copy is the graph. *)
Definition copy (G : Graph) : Graph := G.

(** [G[v]]: the neighbours of [v]; the graph is undirected. *)
Definition neighbors (G : Graph) (v : V) : list V :=
  e ← edges G;
  (if decide (e.1 = v) then [e.2] else [])
    ++ (if decide (e.2 = v) then [e.1] else []).

(** One step of the [for v in thislevel] loop of [_plain_bfs]; the state
    is [(seen, nextlevel)]. *)
Definition visit (G : Graph) (st : list V * list V) (v : V)
  : list V * list V :=
  if decide (v ∈ st.1) then st
  else (st.1 ++ [v], st.2 ++ neighbors G v).

Definition bfs_level (G : Graph) (seen thislevel : list V)
  : list V * list V :=
  foldl (visit G) (seen, []) thislevel.

(** The [while nextlevel] loop. *)
Fixpoint bfs_loop (G : Graph) (fuel : nat) (seen nextlevel : list V)
  : list V :=
  match fuel with
  | O => seen
  | S fuel' =>
      match nextlevel with
      | [] => seen
      | _ :: _ =>
          let st := bfs_level G seen nextlevel in
          bfs_loop G fuel' st.1 st.2
      end
  end.

(** The rounds given to the loop.  Every level but the last marks a node
    that is the source or an endpoint of an edge, so the loop has met an
    empty level before they are spent ([plain_bfs_spec] and
    [plain_bfs_more_fuel] below). *)
Definition bfs_fuel (G : Graph) : nat := 2 * length (edges G) + 3.

Definition plain_bfs (G : Graph) (source : V) : list V :=
  bfs_loop G (bfs_fuel G) [] [source].

(** The nodes of [U] not yet seen, the measure by which the search ends;
    [universe] holds every node the search can meet. *)
Definition unseen (U seen : list V) : nat :=
  length (filter (λ u, u ∉ seen) U).

Definition universe (G : Graph) (source : V) : list V :=
  source :: (e ← edges G; [e.1; e.2]).

(** The [for v in G] loop of [connected_components]. *)
Fixpoint cc_loop (G : Graph) (vs seen : list V) : list (list V) :=
  match vs with
  | [] => []
  | v :: vs' =>
      if decide (v ∈ seen) then cc_loop G vs' seen
      else let c := plain_bfs G v in c :: cc_loop G vs' (seen ++ c)
  end.

Definition connected_components (G : Graph) : list (list V) :=
  cc_loop G (nodes G) [].

(** Two nodes joined by an edge, in either direction. *)
Definition adjacent (G : Graph) (u v : V) : Prop :=
  (u, v) ∈ edges G ∨ (v, u) ∈ edges G.

(** A path of edges. *)
Definition connected (G : Graph) : relation V := rtc (adjacent G).

(** What the search keeps true between two levels, for source [s]. *)
Definition bfs_inv (G : Graph) (s : V) (seen level : list V) : Prop :=
  (∀ w, w ∈ seen ∨ w ∈ level → connected G s w)
  ∧ (∀ u w, u ∈ seen → adjacent G u w → w ∈ seen ∨ w ∈ level)
  ∧ (s ∈ seen ∨ s ∈ level).

(** Every endpoint of an edge is a node. *)
Definition closed (G : Graph) : Prop :=
  ∀ e, e ∈ edges G → e.1 ∈ nodes G ∧ e.2 ∈ nodes G.

(** Two nodes in one of the components returned for [G]. *)
Definition same_component (G : Graph) (u v : V) : Prop :=
  ∃ c, c ∈ connected_components G ∧ u ∈ c ∧ v ∈ c.

(** The edges that do not join a node to itself. *)
Definition without_self_loops (es : list (V * V)) : list (V * V) :=
  filter (λ e, e.1 ≠ e.2) es.

(** A list of components that partitions a vertex set. *)
Definition partitions (cs : list (list V)) (vs : list V) : Prop :=
  (∀ v, v ∈ vs ↔ ∃ c, c ∈ cs ∧ v ∈ c)
  ∧ (∀ i j ci cj v, cs !! i = Some ci → cs !! j = Some cj →
       i ≠ j → v ∈ ci → v ∉ cj).
End graph.
Global Arguments Graph : clear implicits.
End Nx.


(** ** The part of pandas that [clean.py] calls

    A frame is a list of rows, or a list per column where the code adds
    columns to a frame.  A missing value (NaN, NaT) is [None]. *)
Module Pd.
Inductive scalar := Int (z : Z) | Str (s : string) | Timestamp (ns : Z).

#[global] Instance scalar_eq_dec : EqDecision scalar.
Proof. solve_decision. Defined.

Definition cell := option scalar.

(** The cells of a row when none is missing. *)
Definition complete (cells : list cell) : option (list scalar) :=
  mapM id cells.

(** [df.dropna()] on rows of grouping cells and one identifier cell. *)
Definition dropna_row (r : list cell * option Z) : option (list scalar * Z) :=
  match complete r.1, r.2 with
  | Some k, Some a => Some (k, a)
  | _, _ => None
  end.

Definition dropna (df : list (list cell * option Z))
  : list (list scalar * Z) :=
  omap dropna_row df.

(** [df.drop_duplicates()]: the first of equal rows is kept. *)
Fixpoint drop_duplicates {A} `{EqDecision A} (l : list A) : list A :=
  match l with
  | [] => []
  | x :: l' => x :: filter (λ y, y ≠ x) (drop_duplicates l')
  end.

(** [left.merge(right, left_index=True, right_index=True)], an inner join
    of two frames on their index; rows are taken in the order of the
    left frame. *)
Definition merge_index {K A B} `{EqDecision K}
    (left : list (K * A)) (right : list (K * B)) : list (K * (A * B)) :=
  l ← left; r ← right;
  if decide (l.1 = r.1) then [(l.1, (l.2, r.2))] else [].

(** [left.merge(right, left_on=key, right_index=True, how='left')]: every
    left row, once per right row of its key, or once with a null. *)
Definition merge_left {R K B} `{EqDecision K}
    (key : R → K) (left : list R) (right : list (K * B))
  : list (R * option B) :=
  r ← left;
  match filter (λ kb, kb.1 = key r) right with
  | [] => [(r, None)]
  | ms => (λ kb, (r, Some kb.2)) <$> ms
  end.

(** [pd.DataFrame({col: pd.Series(d)})]: one row per key of the dict. *)
Definition frame_of_dict (d : gmap Z nat) : list (Z * nat) :=
  map_to_list d.

(** [df.groupby(keys)]: the row positions of every key; a row with a
    missing key cell is in no group. *)
Definition groupby {R K} `{EqDecision K}
    (key : R → option K) (df : list R) : list (K * list nat) :=
  (λ k, (k, filter (λ i, df !! i ≫= key = Some k) (seq 0 (length df))))
    <$> drop_duplicates (omap key df).

(** Python's [any] on the values of a group. *)
Definition any (l : list bool) : bool := foldr orb false l.

(** [grouped[col].transform(any)]: the result starts as a copy of the
    column, and every group writes its value at its own positions; a row
    that is in no group keeps the value the column has. *)
Definition transform_any {K} (gs : list (K * list nat)) (col : list bool)
  : list bool :=
  foldl (λ result g,
           let res := any (omap (λ i, col !! i) g.2) in
           foldl (λ result' i, <[i:=res]> result') result g.2)
        col gs.

(** [series < bound]: a comparison with NaN is false. *)
Definition lt_scalar (a : option Z) (bound : Z) : bool :=
  match a with
  | Some x => bool_decide (x < bound)%Z
  | None => false
  end.

(** [left.merge(right, on=key, how='inner')]: every pair of a left and a
    right row with one key, in the order of the left frame; two missing
    keys count as one key. *)
Definition merge_inner {L R K} `{EqDecision K}
    (lkey : L → K) (rkey : R → K) (left : list L) (right : list R)
  : list (L * R) :=
  l ← left; r ← right; if decide (lkey l = rkey r) then [(l, r)] else [].
End Pd.

(** ** [clean.py] *)
Module Clean.
Import Pd.

Definition ADULT_AGE : Z := 18.

(** The first component of a vertex: ['h'] or ['c']. *)
Inductive prefix := h | c.

#[global] Instance prefix_eq_dec : EqDecision prefix.
Proof. solve_decision. Defined.

Definition Node : Type := prefix * Z.

(** Rows of the HMIS and of the Connecting Point frame, with the columns
    the code reads.  Raw identifiers are integers, as the docstrings have
    them; a row without its raw identifier is not represented here: the
    left merge of [get_raw_cp] gives such a row to every case without a
    client, and [Missing] below has the frames with these rows and what the
    merges of [get_client_family_ids] do with them. *)
Record hmis_row := mk_hmis {
    Raw_Subject_Unique_Identifier : Z;
    Family_Site_Identifier : cell;
    Program_Start_Date : cell;
    DOB : cell
  }.

Record cp_row := mk_cp {
    Raw_Clientid : Z;
    Caseid : cell;
    age : option Z
  }.

(** A row of a Link Plus duplicates file: ['Set ID'] and the identifier
    column (['Subject Unique Identifier'] or ['Clientid']). *)
Record link_plus_row := mk_link { Set_ID : cell; Linked : option Z }.

(** A row of the matching file: the two identifier columns and whatever
    other columns the file has. *)
Record match_row := mk_match {
    clientid : option Z;
    Subject_Unique_Identifier : option Z;
    other_columns : list cell
  }.

(** [group_edges(node_prefix, df, group_ids, individual_id)] *)
Definition group_edges {R} (node_prefix : prefix) (df : list R)
    (group_ids : R → list cell) (individual_id : R → option Z)
  : list (Node * Node) :=
  let groups :=
    drop_duplicates (dropna ((λ r, (group_ids r, individual_id r)) <$> df)) in
  let edges := merge_index groups groups in
  (λ e, ((node_prefix, e.2.1), (node_prefix, e.2.2))) <$> edges.

(** [matching_edges()]; the file read is the argument.  [dropna] is
    called on the whole frame, before the two columns are selected. *)
Definition matching_dropna (r : match_row) : option (Z * Z) :=
  match clientid r, Subject_Unique_Identifier r, complete (other_columns r) with
  | Some x, Some y, Some _ => Some (x, y)
  | _, _, _ => None
  end.

Definition matching_edges (matching : list match_row) : list (Node * Node) :=
  (λ v, ((c, v.1), (h, v.2))) <$> omap matching_dropna matching.

(** [get_ids_from_nodes(node_prefix, nodes)] *)
Definition get_ids_from_nodes (node_prefix : prefix) (nodes : list Node)
  : list Z :=
  snd <$> filter (λ pair, pair.1 = node_prefix) nodes.

(** [enumerate] *)
Definition enumerate {A} (l : list A) : list (nat * A) :=
  imap (λ idx x, (idx, x)) l.

(** The dict comprehension of [create_dataframe_from_grouped_ids]: a
    later store for the same key replaces the earlier one. *)
Definition grouped_ids_dict (grouped_ids : list (list Z)) : gmap Z nat :=
  foldl (λ d p, foldl (λ d' id, <[id := p.1]> d') d p.2)
        ∅ (enumerate grouped_ids).

Definition create_dataframe_from_grouped_ids (grouped_ids : list (list Z))
  : list (Z * nat) :=
  frame_of_dict (grouped_ids_dict grouped_ids).

Section resolution.
(** The frames and the three files read by [get_client_family_ids]. *)
Variables (hmis : list hmis_row) (cp : list cp_row)
  (hmis_duplicates cp_duplicates : list link_plus_row)
  (matching : list match_row).

Definition hmis_family_key (r : hmis_row) : list cell :=
  [Family_Site_Identifier r; Program_Start_Date r].

Definition cp_family_key (r : cp_row) : list cell := [Caseid r].

Definition G_individuals : Nx.Graph Node :=
  let G := Nx.empty in
  let G := Nx.add_nodes_from G
             ((λ r, (h, Raw_Subject_Unique_Identifier r)) <$> hmis) in
  let G := Nx.add_nodes_from G ((λ r, (c, Raw_Clientid r)) <$> cp) in
  let G := Nx.add_edges_from G
             (group_edges h hmis_duplicates (λ r, [Set_ID r]) Linked) in
  let G := Nx.add_edges_from G
             (group_edges c cp_duplicates (λ r, [Set_ID r]) Linked) in
  Nx.add_edges_from G (matching_edges matching).

Definition G_families : Nx.Graph Node :=
  let G := Nx.copy G_individuals in
  let G := Nx.add_edges_from G
             (group_edges h hmis hmis_family_key
                (λ r, Some (Raw_Subject_Unique_Identifier r))) in
  Nx.add_edges_from G
    (group_edges c cp cp_family_key (λ r, Some (Raw_Clientid r))).

Definition hmis_individuals : list (Z * nat) :=
  create_dataframe_from_grouped_ids
    (get_ids_from_nodes h <$> Nx.connected_components G_individuals).
Definition cp_individuals : list (Z * nat) :=
  create_dataframe_from_grouped_ids
    (get_ids_from_nodes c <$> Nx.connected_components G_individuals).
Definition hmis_families : list (Z * nat) :=
  create_dataframe_from_grouped_ids
    (get_ids_from_nodes h <$> Nx.connected_components G_families).
Definition cp_families : list (Z * nat) :=
  create_dataframe_from_grouped_ids
    (get_ids_from_nodes c <$> Nx.connected_components G_families).

(** The returned frames: every row with its individual label (the new
    ['Subject Unique Identifier'] or ['Clientid']) and its family label
    (['Family Identifier'] or ['Familyid']). *)
Definition get_client_family_ids
  : list (hmis_row * option nat * option nat)
    * list (cp_row * option nat * option nat) :=
  let hmis1 := merge_left Raw_Subject_Unique_Identifier hmis hmis_individuals in
  let hmis2 := merge_left (λ r, Raw_Subject_Unique_Identifier r.1)
                 hmis1 hmis_families in
  let cp1 := merge_left Raw_Clientid cp cp_individuals in
  let cp2 := merge_left (λ r, Raw_Clientid r.1) cp1 cp_families in
  (hmis2, cp2).
End resolution.

(** The rows the two frames have once [get_client_family_ids] has
    returned: the raw row, the individual label, the family label. *)
Definition hmis_labelled : Type := hmis_row * option nat * option nat.
Definition cp_labelled : Type := cp_row * option nat * option nat.

(** A row with the columns added by [hmis_child_status] or
    [cp_child_status]; Connecting Point has its age in [age]. *)
Record with_status (R : Type) := mk_status {
    row : R;
    Age_Entered : option Z;
    Child : bool;
    Adult : bool
  }.
Global Arguments mk_status {R}.
Global Arguments row {R}.
Global Arguments Age_Entered {R}.
Global Arguments Child {R}.
Global Arguments Adult {R}.

Section child_status.
(** [dateutil.relativedelta.relativedelta(start_date, dob).years] *)
Variable relativedelta_years : scalar → scalar → Z.

Definition get_hmis_age_entered (r : hmis_row) : option Z :=
  match Program_Start_Date r, DOB r with
  | Some start_date, Some dob => Some (relativedelta_years start_date dob)
  | _, _ => None
  end.

(** [hmis_child_status(hmis)], for a frame with a row at least: on a frame
    without rows [hmis.apply(..., axis=1)] gives a frame, not a column, and
    the assignment to ['Age Entered'] raises. *)
Definition hmis_child_status (hmis : list hmis_labelled)
  : list (with_status hmis_labelled) :=
  (λ r, let age_entered := get_hmis_age_entered r.1.1 in
        let child := lt_scalar age_entered ADULT_AGE in
        mk_status r age_entered child (negb child)) <$> hmis.
End child_status.

Definition cp_child_status (cp : list cp_labelled)
  : list (with_status cp_labelled) :=
  (λ r, let child := lt_scalar (age r.1.1) ADULT_AGE in
        mk_status r (age r.1.1) child (negb child)) <$> cp.

(** The columns added by [generate_family_characteristics]. *)
Record family_characteristics := mk_characteristics {
    With_Child : list bool;
    With_Adult : list bool;
    With_Family : list bool;
    Family : list bool
  }.

(** [child] and [adult] read the ['Child?'] and ['Adult?'] columns. *)
Definition generate_family_characteristics {R} (df : list R)
    (child adult : R → bool)
    (family_id : R → option nat) (group_ids : R → list cell)
  : family_characteristics :=
  let with_child :=
    transform_any (groupby (λ r, complete (group_ids r)) df) (child <$> df) in
  let with_adult :=
    transform_any (groupby (λ r, complete (group_ids r)) df) (adult <$> df) in
  let with_family := zip_with andb with_child with_adult in
  let family := transform_any (groupby family_id df) with_family in
  mk_characteristics with_child with_adult with_family family.

Definition hmis_generate_family_characteristics
    (hmis : list (with_status hmis_labelled)) : family_characteristics :=
  generate_family_characteristics hmis Child Adult
    (λ r, (row r).2) (λ r, hmis_family_key (row r).1.1).

Definition cp_generate_family_characteristics
    (cp : list (with_status cp_labelled)) : family_characteristics :=
  generate_family_characteristics cp Child Adult
    (λ r, (row r).2) (λ r, cp_family_key (row r).1.1).

(** [get_hmis_cp()], on frames already read and with their dates parsed:
    the two frames and the family columns added to each. *)
Definition get_hmis_cp (relativedelta_years : scalar → scalar → Z)
    (hmis : list hmis_row) (cp : list cp_row)
    (hmis_duplicates cp_duplicates : list link_plus_row)
    (matching : list match_row)
  : (list (with_status hmis_labelled) * family_characteristics)
    * (list (with_status cp_labelled) * family_characteristics) :=
  let ids :=
    get_client_family_ids hmis cp hmis_duplicates cp_duplicates matching in
  let hmis := hmis_child_status relativedelta_years ids.1 in
  let cp := cp_child_status ids.2 in
  ((hmis, hmis_generate_family_characteristics hmis),
   (cp, cp_generate_family_characteristics cp)).

(** ** What the statements below speak of *)

(** The vertices put in the graph for the rows of the two frames. *)
Definition record_nodes (hmis : list hmis_row) (cp : list cp_row) : list Node :=
  ((λ r, (h, Raw_Subject_Unique_Identifier r)) <$> hmis)
    ++ ((λ r, (c, Raw_Clientid r)) <$> cp).

(** The edges read from the three evidence files. *)
Definition evidence_edges (hmis_duplicates cp_duplicates : list link_plus_row)
    (matching : list match_row) : list (Node * Node) :=
  group_edges h hmis_duplicates (λ r, [Set_ID r]) Linked
    ++ group_edges c cp_duplicates (λ r, [Set_ID r]) Linked
    ++ matching_edges matching.

(** The raw identifier of the node occurs in no evidence file. *)
Definition in_no_evidence (n : Node)
    (hmis_duplicates cp_duplicates : list link_plus_row)
    (matching : list match_row) : Prop :=
  match n.1 with
  | h => (∀ r, r ∈ hmis_duplicates → Linked r ≠ Some n.2)
         ∧ (∀ r, r ∈ matching → Subject_Unique_Identifier r ≠ Some n.2)
  | c => (∀ r, r ∈ cp_duplicates → Linked r ≠ Some n.2)
         ∧ (∀ r, r ∈ matching → clientid r ≠ Some n.2)
  end.

(** The edge list in the words of the specification: the rows that miss
    no grouping cell and no identifier, without repeated rows, and then
    every pair of them under one key, tagged. *)
Definition kept_rows {R} (df : list R)
    (group_ids : R → list cell) (individual_id : R → option Z)
  : list (list scalar * Z) :=
  drop_duplicates
    (omap (λ r, match complete (group_ids r), individual_id r with
                | Some k, Some a => Some (k, a)
                | _, _ => None
                end) df).

Definition pairs_sharing_key {R} (node_prefix : prefix) (df : list R)
    (group_ids : R → list cell) (individual_id : R → option Z)
  : list (Node * Node) :=
  x ← kept_rows df group_ids individual_id;
  y ← kept_rows df group_ids individual_id;
  if decide (x.1 = y.1)
  then [((node_prefix, x.2), (node_prefix, y.2))] else [].

(** The dict behind a label frame: the components of [G] read through the
    prefix [p]. *)
Definition label_dict (G : Nx.Graph Node) (p : prefix) : gmap Z nat :=
  grouped_ids_dict (get_ids_from_nodes p <$> Nx.connected_components G).


(** ** The frames as read *)

(** Rows of [program with family.csv] and of [client de-identified.csv],
    and rows of Connecting Point's [case.csv] and [client.csv], with the
    columns the code names. *)
Record program_row := mk_program {
    Program_Subject_Unique_Identifier : option Z;
    Program_Family_Site_Identifier : cell;
    Program_Program_Start_Date : cell
  }.

Record hmis_client_row := mk_hmis_client {
    Client_Subject_Unique_Identifier : option Z;
    Client_DOB : cell
  }.

Record case_row := mk_case { Case_Caseid : cell; servstart : cell }.

Record cp_client_row := mk_cp_client {
    Client_Caseid : cell;
    Client_Clientid : option Z;
    Client_age : option Z
  }.

(** [get_raw_hmis()], on the two files read. *)
Definition get_raw_hmis (program : list program_row)
    (client : list hmis_client_row) : list (program_row * hmis_client_row) :=
  merge_inner Program_Subject_Unique_Identifier
    Client_Subject_Unique_Identifier program client.

(** [get_raw_cp()], on the two files read; the renaming of [caseid] gives
    the key column of [case] the name it has in [client]. *)
Definition get_raw_cp (case : list case_row) (client : list cp_client_row)
  : list (case_row * option cp_client_row) :=
  merge_left Case_Caseid case ((λ cl, (Client_Caseid cl, cl)) <$> client).

(** The relation of the three columns of a row as [hmis_child_status]
    and [cp_child_status] leave them. *)
Definition status_row {R} (r : with_status R) : Prop :=
  Child r = lt_scalar (Age_Entered r) ADULT_AGE ∧ Adult r = negb (Child r).

End Clean.

(** ** Frames in which a row may lack its raw identifier

    [get_raw_cp] joins the cases to the clients with a left merge, so a
    case without a client is a row whose ['Clientid'] is NaN.  A NaN is
    equal to no other object: every such row is a vertex of its own in the
    graph and a key of its own in the label dict.  A merge, for its part,
    matches a missing key with every missing key.  Here are
    [get_client_family_ids] and the functions it calls on such frames: a
    key of the graph and of the dict is a raw identifier or the NaN of the
    row at a position. *)
Module Missing.
Import Pd Clean.

Definition ident : Type := Z + nat.

Definition Vertex : Type := prefix * ident.

Record hmis_record := mk_hmis_record {
    hmis_raw : option Z;
    hmis_site : cell;
    hmis_start : cell;
    hmis_dob : cell
  }.

Record cp_record := mk_cp_record {
    cp_raw : option Z;
    cp_caseid : cell;
    cp_age : option Z
  }.

(** [(node_prefix, v)] for the value [v] at position [i] of the column. *)
Definition vertex_of (node_prefix : prefix) (i : nat) (v : option Z) : Vertex :=
  (node_prefix, match v with Some z => inl z | None => inr i end).

(** An edge of [group_edges] or [matching_edges]: [dropna] has left it
    no missing identifier. *)
Definition known (e : Node * Node) : Vertex * Vertex :=
  ((e.1.1, inl e.1.2), (e.2.1, inl e.2.2)).

(** The key as a merge compares it. *)
Definition merge_key (k : ident) : option Z :=
  match k with inl z => Some z | inr _ => None end.

(** [get_ids_from_nodes(node_prefix, nodes)] *)
Definition get_ids_from_nodes (node_prefix : prefix) (nodes : list Vertex)
  : list ident :=
  snd <$> filter (λ pair, pair.1 = node_prefix) nodes.

(** The dict comprehension of [create_dataframe_from_grouped_ids]. *)
Definition grouped_ids_dict (grouped_ids : list (list ident))
  : gmap ident nat :=
  foldl (λ d p, foldl (λ d' id, <[id := p.1]> d') d p.2)
        ∅ (enumerate grouped_ids).

(** The frame of [create_dataframe_from_grouped_ids], its index as a merge
    reads it. *)
Definition create_dataframe_from_grouped_ids (grouped_ids : list (list ident))
  : list (option Z * nat) :=
  (λ kv, (merge_key kv.1, kv.2)) <$> map_to_list (grouped_ids_dict grouped_ids).

Section resolution.
Variables (hmis : list hmis_record) (cp : list cp_record)
  (hmis_duplicates cp_duplicates : list link_plus_row)
  (matching : list match_row).

Definition G_individuals : Nx.Graph Vertex :=
  let G := Nx.empty in
  let G := Nx.add_nodes_from G
             (imap (λ i r, vertex_of h i (hmis_raw r)) hmis) in
  let G := Nx.add_nodes_from G (imap (λ i r, vertex_of c i (cp_raw r)) cp) in
  let G := Nx.add_edges_from G
             (known <$> group_edges h hmis_duplicates (λ r, [Set_ID r])
                          Linked) in
  let G := Nx.add_edges_from G
             (known <$> group_edges c cp_duplicates (λ r, [Set_ID r])
                          Linked) in
  Nx.add_edges_from G (known <$> matching_edges matching).

Definition G_families : Nx.Graph Vertex :=
  let G := Nx.copy G_individuals in
  let G := Nx.add_edges_from G
             (known <$> group_edges h hmis
                          (λ r, [hmis_site r; hmis_start r]) hmis_raw) in
  Nx.add_edges_from G
    (known <$> group_edges c cp (λ r, [cp_caseid r]) cp_raw).

Definition hmis_individuals : list (option Z * nat) :=
  create_dataframe_from_grouped_ids
    (get_ids_from_nodes h <$> Nx.connected_components G_individuals).
Definition cp_individuals : list (option Z * nat) :=
  create_dataframe_from_grouped_ids
    (get_ids_from_nodes c <$> Nx.connected_components G_individuals).
Definition hmis_families : list (option Z * nat) :=
  create_dataframe_from_grouped_ids
    (get_ids_from_nodes h <$> Nx.connected_components G_families).
Definition cp_families : list (option Z * nat) :=
  create_dataframe_from_grouped_ids
    (get_ids_from_nodes c <$> Nx.connected_components G_families).

Definition get_client_family_ids
  : list (hmis_record * option nat * option nat)
    * list (cp_record * option nat * option nat) :=
  let hmis1 := merge_left hmis_raw hmis hmis_individuals in
  let hmis2 := merge_left (λ r, hmis_raw r.1) hmis1 hmis_families in
  let cp1 := merge_left cp_raw cp cp_individuals in
  let cp2 := merge_left (λ r, cp_raw r.1) cp1 cp_families in
  (hmis2, cp2).
End resolution.


(** A Connecting Point frame as [get_raw_cp] returns it for three cases, of
    which the last two have no client. *)
Definition cases_without_client : list cp_record :=
  [mk_cp_record (Some 55%Z) (Some (Int 1)) (Some 40%Z);
   mk_cp_record None (Some (Int 2)) None;
   mk_cp_record None (Some (Int 3)) None].


End Missing.

Import Pd Clean.

(** ** Tables of a small run

    Two HMIS identifiers linked by Link Plus, matched to a Connecting Point
    identifier which is itself linked to another; one HMIS identifier with
    no evidence; two HMIS rows enrolled together. *)
Module Scenario.
Definition hmis : list hmis_row :=
  [mk_hmis 100 (Some (Str "X")) (Some (Timestamp 20200101)) (Some (Timestamp 20150101));
   mk_hmis 101 None None None;
   mk_hmis 999 None None None;
   mk_hmis 7 (Some (Str "X")) (Some (Timestamp 20200101)) (Some (Timestamp 19800101))].

Definition cp : list cp_row :=
  [mk_cp 55 (Some (Int 1)) (Some 40%Z); mk_cp 56 None None].

Definition hmis_duplicates : list link_plus_row :=
  [mk_link (Some (Int 1)) (Some 100%Z); mk_link (Some (Int 1)) (Some 101%Z)].

Definition cp_duplicates : list link_plus_row :=
  [mk_link (Some (Str "A")) (Some 55%Z); mk_link (Some (Str "A")) (Some 56%Z)].

Definition matching : list match_row := [mk_match (Some 55%Z) (Some 101%Z) []].

Definition G : Nx.Graph Node :=
  G_individuals hmis cp hmis_duplicates cp_duplicates matching.

Definition labelled : list hmis_labelled * list cp_labelled :=
  get_client_family_ids hmis cp hmis_duplicates cp_duplicates matching.

(** Whole years between two dates written as yyyymmdd. *)
Definition years (start_date dob : scalar) : Z :=
  match start_date, dob with
  | Timestamp s, Timestamp d => ((s - d) `div` 10000)%Z
  | _, _ => 0%Z
  end.
End Scenario.

(** * The run on the small tables *)

Example components_of_a_small_graph :
  Nx.connected_components
    (Nx.add_edges_from (Nx.add_nodes_from Nx.empty [1; 2; 3; 4; 5])
       [(1, 3); (4, 4); (3, 5)])
  = [[1; 3; 5]; [2]; [4]].
Proof. vm_compute. reflexivity. Qed.

Example scenario_components :
  Nx.connected_components Scenario.G
  = [[(h, 100); (h, 101); (c, 55); (c, 56)]; [(h, 999)]; [(h, 7)]]%Z.
Proof. vm_compute. reflexivity. Qed.

Example scenario_individual_labels :
  (snd ∘ fst <$> (Scenario.labelled).1, snd ∘ fst <$> (Scenario.labelled).2)
  = ([Some 0; Some 0; Some 1; Some 2], [Some 0; Some 0]).
Proof. vm_compute. reflexivity. Qed.

Example scenario_family_labels :
  (snd <$> (Scenario.labelled).1, snd <$> (Scenario.labelled).2)
  = ([Some 0; Some 0; Some 1; Some 0], [Some 0; Some 0]).
Proof. vm_compute. reflexivity. Qed.

Example scenario_family_flags :
  hmis_generate_family_characteristics
    (hmis_child_status Scenario.years (Scenario.labelled).1)
  = mk_characteristics [true; false; false; true] [true; true; true; true]
      [true; false; false; true] [true; true; false; true].
Proof. vm_compute. reflexivity. Qed.

Example repeated_row_paired_once :
  group_edges h [mk_link (Some (Int 1)) (Some 100%Z);
                 mk_link (Some (Int 1)) (Some 100%Z);
                 mk_link None (Some 7%Z);
                 mk_link (Some (Int 1)) (Some 101%Z)]
    (λ r, [Set_ID r]) Linked
  = [((h, 100), (h, 100)); ((h, 100), (h, 101));
     ((h, 101), (h, 100)); ((h, 101), (h, 101))]%Z.
Proof. vm_compute. reflexivity. Qed.

Example cases_without_client_components :
  Nx.connected_components
    (Missing.G_families [] Missing.cases_without_client [] [] [])
  = [[(c, inl 55%Z)]; [(c, inr 1)]; [(c, inr 2)]].
Proof. vm_compute. reflexivity. Qed.

Example only_children_is_no_family :
  generate_family_characteristics [(1, true); (2, true); (3, true)]
    snd (λ r, negb r.2) (λ _, Some 4) (λ _, [Some (Str "X")])
  = mk_characteristics [true; true; true] [false; false; false]
      [false; false; false] [false; false; false].
Proof. vm_compute. reflexivity. Qed.


(** * Facts about the graph operations *)
Section nx_facts.
Context {V : Type} `{EqDecision V}.
Implicit Types (G : Nx.Graph V) (u v w : V) (e : V * V).

Lemma elem_of_neighbors G v w : w ∈ Nx.neighbors G v ↔ Nx.adjacent G v w.
Proof.
  unfold Nx.neighbors, Nx.adjacent. rewrite list_elem_of_bind. split.
  - intros ([a b] & Hw & He). simpl in Hw.
    apply elem_of_app in Hw as [Hw|Hw]; case_decide; subst;
      try (by apply elem_of_nil in Hw);
      apply list_elem_of_singleton in Hw; subst; auto.
  - intros [He|He].
    + exists (v, w). split; [|done]. simpl. apply elem_of_app. left.
      rewrite decide_True by done. by apply list_elem_of_singleton.
    + exists (w, v). split; [|done]. simpl. apply elem_of_app. right.
      rewrite decide_True by done. by apply list_elem_of_singleton.
Qed.

Lemma adjacent_sym G u v : Nx.adjacent G u v → Nx.adjacent G v u.
Proof. unfold Nx.adjacent. tauto. Qed.

Lemma connected_sym G u v : Nx.connected G u v → Nx.connected G v u.
Proof.
  induction 1 as [|x y z Hxy _ IH]; [apply rtc_refl|].
  eapply rtc_r; [exact IH|]. by apply adjacent_sym.
Qed.

Lemma connected_trans G u v w :
  Nx.connected G u v → Nx.connected G v w → Nx.connected G u w.
Proof. apply rtc_trans. Qed.

(** The effect of one level of the search on [(seen, nextlevel)]. *)
Lemma foldl_visit G level : ∀ seen next,
  (∀ w, w ∈ fst (foldl (Nx.visit G) (seen, next) level)
        ↔ w ∈ seen ∨ w ∈ level)
  ∧ (∀ w, w ∈ snd (foldl (Nx.visit G) (seen, next) level)
        ↔ w ∈ next ∨ ∃ v, v ∈ level ∧ (v ∉ seen) ∧ Nx.adjacent G v w).
Proof.
  induction level as [|v level IH]; intros seen next; simpl.
  - split; intros w.
    + rewrite elem_of_nil. tauto.
    + split; [tauto|]. intros [?|(? & Hv & _)]; [done|].
      by apply elem_of_nil in Hv.
  - unfold Nx.visit at 2 4. simpl. case_decide as Hv.
    + destruct (IH seen next) as [IH1 IH2]. split; intros w.
      * rewrite IH1, elem_of_cons. split; [tauto|].
        intros [?|[->|?]]; auto.
      * rewrite IH2. split; intros [?|(x & Hx & Hs & Ha)]; auto; right.
        -- exists x. rewrite elem_of_cons. auto.
        -- exists x. apply elem_of_cons in Hx as [->|Hx]; [done|auto].
    + destruct (IH (seen ++ [v]) (next ++ Nx.neighbors G v)) as [IH1 IH2].
      split; intros w.
      * rewrite IH1, elem_of_app, list_elem_of_singleton, elem_of_cons. tauto.
      * rewrite IH2, elem_of_app, elem_of_neighbors.
        split.
        -- intros [[?|?]|(x & Hx & Hs & Ha)]; auto; right.
           ++ exists v. rewrite elem_of_cons. auto.
           ++ exists x. rewrite elem_of_cons. split; [auto|].
              split; [|done]. intros ?. apply Hs, elem_of_app. auto.
        -- intros [?|(x & Hx & Hs & Ha)]; auto.
           destruct (decide (x = v)) as [->|Hne]; auto.
           right. exists x. apply elem_of_cons in Hx as [?|Hx]; [done|].
           split; [done|]. split; [|done].
           rewrite elem_of_app, list_elem_of_singleton. tauto.
Qed.

Lemma unseen_mono U seen seen' :
  (∀ w, w ∈ seen → w ∈ seen') → Nx.unseen U seen' ≤ Nx.unseen U seen.
Proof.
  intros Hsub. unfold Nx.unseen. induction U as [|x U IH]; [done|].
  rewrite !filter_cons. repeat case_decide; simpl; try lia.
  exfalso. auto.
Qed.

Lemma unseen_lt U seen seen' v :
  (∀ w, w ∈ seen → w ∈ seen') → v ∈ U → v ∉ seen → v ∈ seen' →
  Nx.unseen U seen' < Nx.unseen U seen.
Proof.
  intros Hsub HU Hv Hv'. unfold Nx.unseen. induction U as [|x U IH].
  - by apply elem_of_nil in HU.
  - pose proof (unseen_mono U seen seen' Hsub) as Hm. unfold Nx.unseen in Hm.
    rewrite !filter_cons. apply elem_of_cons in HU as [<-|HU].
    + repeat case_decide; simpl; try lia; done.
    + specialize (IH HU). repeat case_decide; simpl; try lia.
      exfalso. auto.
Qed.
End nx_facts.

Section bfs_facts.
Context {V : Type} `{EqDecision V}.
Implicit Types (G : Nx.Graph V) (u v w : V) (e : V * V).

Lemma bfs_inv_done G s seen w :
  Nx.bfs_inv G s seen [] → w ∈ seen ↔ Nx.connected G s w.
Proof.
  intros (I1 & I2 & I3). split; [auto|].
  assert (Hs : s ∈ seen).
  { destruct I3 as [?|I3]; [done|]. by apply elem_of_nil in I3. }
  revert w. apply (rtc_ind_r (λ w, w ∈ seen)); [done|].
  intros y z _ Hyz IH.
  destruct (I2 y z IH Hyz) as [?|Hn]; [done|]. by apply elem_of_nil in Hn.
Qed.

Lemma bfs_inv_level G s seen level :
  Nx.bfs_inv G s seen level →
  Nx.bfs_inv G s (fst (Nx.bfs_level G seen level)) (snd (Nx.bfs_level G seen level)).
Proof.
  intros (I1 & I2 & I3). unfold Nx.bfs_level.
  destruct (foldl_visit G level seen []) as [F1 F2].
  split; [|split].
  - intros w [Hw|Hw].
    + apply F1 in Hw. auto.
    + apply F2 in Hw as [Hw|(x & Hx & _ & Ha)]; [by apply elem_of_nil in Hw|].
      eapply rtc_r; [|exact Ha]. apply I1. auto.
  - intros u w Hu Ha. apply F1 in Hu.
    destruct (decide (u ∈ seen)) as [Hs|Hs].
    + left. apply F1. by apply (I2 u w).
    + right. apply F2. right. exists u. destruct Hu; [done|auto].
  - left. apply F1. tauto.
Qed.

Lemma bfs_loop_spec G s U :
  (∀ u w, Nx.adjacent G u w → w ∈ U) →
  ∀ fuel seen level,
    Nx.unseen U seen < fuel →
    (∀ w, w ∈ level → w ∈ U) →
    Nx.bfs_inv G s seen level →
    ∀ w, w ∈ Nx.bfs_loop G fuel seen level ↔ Nx.connected G s w.
Proof.
  intros HU fuel. induction fuel as [|fuel IH]; intros seen level Hf Hl HI w.
  { lia. }
  destruct level as [|v0 level]; simpl.
  { by apply bfs_inv_done. }
  pose proof (bfs_inv_level G s seen (v0 :: level) HI) as HI'.
  destruct (foldl_visit G (v0 :: level) seen []) as [F1 F2].
  fold (Nx.bfs_level G seen (v0 :: level)) in F1, F2.
  destruct (decide (Forall (λ v, v ∈ seen) (v0 :: level))) as [Hall|Hex].
  - assert (Hnil : snd (Nx.bfs_level G seen (v0 :: level)) = []).
    { apply elem_of_nil_inv. intros x Hx.
      apply F2 in Hx as [Hx|(y & Hy & Hs & _)]; [by apply elem_of_nil in Hx|].
      rewrite Forall_forall in Hall. auto. }
    rewrite Hnil in HI' |- *.
    destruct fuel; simpl; by apply bfs_inv_done.
  - apply not_Forall_Exists in Hex; [|apply _].
    apply Exists_exists in Hex as (x & Hx & Hxs). simpl in Hxs.
    apply IH; [| |done].
    + assert (Nx.unseen U (fst (Nx.bfs_level G seen (v0 :: level)))
              < Nx.unseen U seen); [|lia].
      apply (unseen_lt _ _ _ x); auto.
      * intros y Hy. apply F1. auto.
      * apply F1. auto.
    + intros y Hy.
      apply F2 in Hy as [Hy|(z & _ & _ & Ha)]; [by apply elem_of_nil in Hy|].
      eauto.
Qed.

(** Once the rounds exceed the nodes left to see, one more round changes
    nothing: the loop has ended by itself. *)
Lemma bfs_loop_stable G U :
  (∀ u w, Nx.adjacent G u w → w ∈ U) →
  ∀ fuel seen level,
    Nx.unseen U seen < fuel →
    (∀ w, w ∈ level → w ∈ U) →
    Nx.bfs_loop G (S fuel) seen level = Nx.bfs_loop G fuel seen level.
Proof.
  intros HU fuel. induction fuel as [|fuel IH]; intros seen level Hf Hl.
  { lia. }
  destruct level as [|v0 level]; [done|].
  change (Nx.bfs_loop G (S (S fuel)) seen (v0 :: level))
    with (Nx.bfs_loop G (S fuel) (fst (Nx.bfs_level G seen (v0 :: level)))
            (snd (Nx.bfs_level G seen (v0 :: level)))).
  change (Nx.bfs_loop G (S fuel) seen (v0 :: level))
    with (Nx.bfs_loop G fuel (fst (Nx.bfs_level G seen (v0 :: level)))
            (snd (Nx.bfs_level G seen (v0 :: level)))).
  destruct (foldl_visit G (v0 :: level) seen []) as [F1 F2].
  fold (Nx.bfs_level G seen (v0 :: level)) in F1, F2.
  destruct (decide (Forall (λ v, v ∈ seen) (v0 :: level))) as [Hall|Hex].
  - assert (Hnil : snd (Nx.bfs_level G seen (v0 :: level)) = []).
    { apply elem_of_nil_inv. intros x Hx.
      apply F2 in Hx as [Hx|(y & Hy & Hs & _)]; [by apply elem_of_nil in Hx|].
      rewrite Forall_forall in Hall. auto. }
    rewrite Hnil. by destruct fuel.
  - apply not_Forall_Exists in Hex; [|apply _].
    apply Exists_exists in Hex as (x & Hx & Hxs). simpl in Hxs.
    apply IH.
    + assert (Nx.unseen U (fst (Nx.bfs_level G seen (v0 :: level)))
              < Nx.unseen U seen); [|lia].
      apply (unseen_lt _ _ _ x); auto.
      * intros y Hy. apply F1. auto.
      * apply F1. auto.
    + intros y Hy.
      apply F2 in Hy as [Hy|(z & _ & _ & Ha)]; [by apply elem_of_nil in Hy|].
      eauto.
Qed.

Lemma unseen_le_length (U seen : list V) : Nx.unseen U seen ≤ length U.
Proof. unfold Nx.unseen. apply length_filter. Qed.

(** The search from [s] returns the nodes joined to [s] by a path, and the
    rounds allotted to it are enough for that. *)
Lemma plain_bfs_spec G s w : w ∈ Nx.plain_bfs G s ↔ Nx.connected G s w.
Proof.
  unfold Nx.plain_bfs.
  apply (bfs_loop_spec G s (Nx.universe G s)).
  - intros u x [He|He]; unfold Nx.universe; apply elem_of_cons; right;
      apply list_elem_of_bind; eexists; (split; [|exact He]); simpl;
      rewrite !elem_of_cons; auto.
  - eapply Nat.le_lt_trans; [apply unseen_le_length|].
    unfold Nx.universe, Nx.bfs_fuel. simpl.
    assert (length (edges ← Nx.edges G; [edges.1; edges.2])
            = 2 * length (Nx.edges G)) as ->; [|lia].
    induction (Nx.edges G) as [|e es IHes]; [done|].
    rewrite bind_cons, length_app, IHes. simpl. lia.
  - intros x Hx. apply list_elem_of_singleton in Hx as ->.
    unfold Nx.universe. apply elem_of_cons. auto.
  - split; [|split].
    + intros x [Hx|Hx]; [by apply elem_of_nil in Hx|].
      apply list_elem_of_singleton in Hx as ->. apply rtc_refl.
    + intros u x Hu. by apply elem_of_nil in Hu.
    + right. by apply list_elem_of_singleton.
Qed.
(** With more rounds than [bfs_fuel] the search returns the same list. *)
Lemma plain_bfs_more_fuel G s k :
  Nx.bfs_loop G (Nx.bfs_fuel G + k) [] [s] = Nx.plain_bfs G s.
Proof.
  unfold Nx.plain_bfs. induction k as [|k IH].
  { by rewrite Nat.add_0_r. }
  replace (Nx.bfs_fuel G + S k) with (S (Nx.bfs_fuel G + k)) by lia.
  rewrite <- IH. apply (bfs_loop_stable G (Nx.universe G s)).
  - intros u x [He|He]; unfold Nx.universe; apply elem_of_cons; right;
      apply list_elem_of_bind; eexists; (split; [|exact He]); simpl;
      rewrite !elem_of_cons; auto.
  - eapply Nat.le_lt_trans; [apply unseen_le_length|].
    unfold Nx.universe, Nx.bfs_fuel. simpl.
    assert (length (edges ← Nx.edges G; [edges.1; edges.2])
            = 2 * length (Nx.edges G)) as ->; [|lia].
    induction (Nx.edges G) as [|e es IHes]; [done|].
    rewrite bind_cons, length_app, IHes. simpl. lia.
  - intros x Hx. apply list_elem_of_singleton in Hx as ->.
    unfold Nx.universe. apply elem_of_cons. auto.
Qed.
End bfs_facts.

Section components_facts.
Context {V : Type} `{EqDecision V}.
Implicit Types (G : Nx.Graph V) (u v w : V) (e : V * V).

Lemma cc_loop_spec G vs : ∀ seen,
  (∀ u w, u ∈ seen → Nx.connected G u w → w ∈ seen) →
  (∀ c, c ∈ Nx.cc_loop G vs seen →
        ∃ v, v ∈ vs ∧ (v ∉ seen) ∧ c = Nx.plain_bfs G v)
  ∧ (∀ v, v ∈ vs → v ∈ seen ∨ ∃ c, c ∈ Nx.cc_loop G vs seen ∧ v ∈ c)
  ∧ (∀ c w, c ∈ Nx.cc_loop G vs seen → w ∈ c → w ∉ seen)
  ∧ (∀ i j ci cj w, Nx.cc_loop G vs seen !! i = Some ci →
       Nx.cc_loop G vs seen !! j = Some cj → i ≠ j → w ∈ ci → w ∉ cj).
Proof.
  induction vs as [|v vs IH]; intros seen Hcl; simpl.
  - repeat split.
    + intros c Hc. by apply elem_of_nil in Hc.
    + intros v Hv. by apply elem_of_nil in Hv.
    + intros c w Hc. by apply elem_of_nil in Hc.
    + intros i j ci cj w Hi. by rewrite lookup_nil in Hi.
  - case_decide as Hv.
    + destruct (IH seen Hcl) as (A & B & D & C). repeat split; [| |done|done].
      * intros c0 Hc. destruct (A c0 Hc) as (x & Hx & Hs & ->).
        exists x. rewrite elem_of_cons. auto.
      * intros x Hx. apply elem_of_cons in Hx as [->|Hx]; auto.
    + set (c0 := Nx.plain_bfs G v).
      assert (Hcl' : ∀ u w, u ∈ seen ++ c0 → Nx.connected G u w → w ∈ seen ++ c0).
      { intros u w Hu Huw. apply elem_of_app in Hu as [Hu|Hu]; apply elem_of_app.
        - left. eauto.
        - right. apply plain_bfs_spec. apply plain_bfs_spec in Hu.
          by eapply connected_trans. }
      assert (Hdisj : ∀ w, w ∈ c0 → w ∉ seen).
      { intros w Hw Hs. apply plain_bfs_spec, connected_sym in Hw. eauto. }
      destruct (IH (seen ++ c0) Hcl') as (A & B & D & C).
      repeat split.
      * intros c1 Hc. apply elem_of_cons in Hc as [->|Hc].
        -- exists v. rewrite elem_of_cons. auto.
        -- destruct (A c1 Hc) as (x & Hx & Hs & ->).
           exists x. rewrite elem_of_cons. split; [auto|]. split; [|done].
           intros ?. apply Hs, elem_of_app. auto.
      * intros x Hx. apply elem_of_cons in Hx as [->|Hx].
        -- right. exists c0. split; [apply elem_of_cons; auto|].
           apply plain_bfs_spec, rtc_refl.
        -- destruct (B x Hx) as [Hs|(c1 & Hc & Hxc)].
           ++ apply elem_of_app in Hs as [?|?]; [auto|].
              right. exists c0. split; [apply elem_of_cons; auto|done].
           ++ right. exists c1. split; [apply elem_of_cons; auto|done].
      * intros c1 w Hc Hw. apply elem_of_cons in Hc as [->|Hc]; [auto|].
        intros ?. apply (D c1 w Hc Hw), elem_of_app. auto.
      * intros [|i] [|j] ci cj w Hi Hj Hne Hwi Hwj; simpl in *; simplify_eq.
        -- apply (D cj w); [by eapply list_elem_of_lookup_2|done|].
           apply elem_of_app. auto.
        -- apply (D ci w); [by eapply list_elem_of_lookup_2|done|].
           apply elem_of_app. auto.
        -- apply (C i j ci cj w); auto.
Qed.

Lemma closed_connected G v w :
  Nx.closed G → v ∈ Nx.nodes G → Nx.connected G v w → w ∈ Nx.nodes G.
Proof.
  intros Hcl Hv Hc. induction Hc as [|x y z [He|He] _ IH]; [done| |];
    apply IH; by destruct (Hcl _ He).
Qed.

(** Every component returned is the set of nodes joined by a path to any
    of its members. *)
Lemma component_class G c0 u w :
  c0 ∈ Nx.connected_components G → u ∈ c0 →
  w ∈ c0 ↔ Nx.connected G u w.
Proof.
  intros Hc Hu. unfold Nx.connected_components in Hc.
  destruct (cc_loop_spec G (Nx.nodes G) []) as (A & _).
  { intros ? ? Hn. by apply elem_of_nil in Hn. }
  destruct (A c0 Hc) as (x & _ & _ & ->).
  rewrite plain_bfs_spec in Hu |- *. split; intros Hw.
  - eapply connected_trans; [by apply connected_sym|done].
  - by eapply connected_trans.
Qed.

Lemma components_partition G :
  Nx.closed G → Nx.partitions (Nx.connected_components G) (Nx.nodes G).
Proof.
  intros Hcl. unfold Nx.connected_components.
  destruct (cc_loop_spec G (Nx.nodes G) []) as (A & B & _ & C).
  { intros ? ? Hn. by apply elem_of_nil in Hn. }
  split; [|exact C]. intros v. split.
  - intros Hv. destruct (B v Hv) as [Hn|?]; [|done]. by apply elem_of_nil in Hn.
  - intros (c0 & Hc & Hv). destruct (A c0 Hc) as (x & Hx & _ & ->).
    apply plain_bfs_spec in Hv. by eapply closed_connected.
Qed.

(** A node lies in the component at position [i] and in no other. *)
Lemma component_index G v :
  Nx.closed G → v ∈ Nx.nodes G →
  ∃ i c0, Nx.connected_components G !! i = Some c0 ∧ v ∈ c0
    ∧ ∀ j c1, Nx.connected_components G !! j = Some c1 → v ∈ c1 → j = i.
Proof.
  intros Hcl Hv. destruct (components_partition G Hcl) as [P1 P2].
  apply P1 in Hv as (c0 & Hc & Hv).
  apply list_elem_of_lookup in Hc as (i & Hi).
  exists i, c0. repeat split; [done..|].
  intros j c1 Hj Hv1. destruct (decide (j = i)) as [|Hne]; [done|].
  by destruct (P2 j i c1 c0 v).
Qed.

Lemma nodes_add_node G n v :
  v ∈ Nx.nodes (Nx.add_node G n) ↔ v ∈ Nx.nodes G ∨ v = n.
Proof.
  unfold Nx.add_node. case_decide; simpl.
  - split; [auto|]. by intros [?| ->].
  - by rewrite elem_of_app, list_elem_of_singleton.
Qed.

Lemma edges_add_node G n : Nx.edges (Nx.add_node G n) = Nx.edges G.
Proof. unfold Nx.add_node. by case_decide. Qed.

Lemma nodes_add_nodes_from ns : ∀ G v,
  v ∈ Nx.nodes (Nx.add_nodes_from G ns) ↔ v ∈ Nx.nodes G ∨ v ∈ ns.
Proof.
  unfold Nx.add_nodes_from.
  induction ns as [|n ns IH]; intros G v; simpl.
  - rewrite elem_of_nil. tauto.
  - rewrite IH, nodes_add_node, elem_of_cons. tauto.
Qed.

Lemma edges_add_nodes_from ns : ∀ G,
  Nx.edges (Nx.add_nodes_from G ns) = Nx.edges G.
Proof.
  unfold Nx.add_nodes_from.
  induction ns as [|n ns IH]; intros G; simpl; [done|].
  by rewrite IH, edges_add_node.
Qed.

Lemma nodes_add_edge G e v :
  v ∈ Nx.nodes (Nx.add_edge G e) ↔ v ∈ Nx.nodes G ∨ v = e.1 ∨ v = e.2.
Proof. unfold Nx.add_edge. simpl. rewrite !nodes_add_node. tauto. Qed.

Lemma edges_add_edge G e : Nx.edges (Nx.add_edge G e) = Nx.edges G ++ [e].
Proof. unfold Nx.add_edge. simpl. by rewrite !edges_add_node. Qed.

Lemma nodes_add_edges_from es : ∀ G v,
  v ∈ Nx.nodes (Nx.add_edges_from G es)
  ↔ v ∈ Nx.nodes G ∨ ∃ e, e ∈ es ∧ (v = e.1 ∨ v = e.2).
Proof.
  unfold Nx.add_edges_from.
  induction es as [|e es IH]; intros G v; simpl.
  - split; [auto|]. intros [?|(? & Hn & _)]; [done|]. by apply elem_of_nil in Hn.
  - rewrite IH, nodes_add_edge. split.
    + intros [[?|?]|(x & Hx & ?)]; auto; right.
      * exists e. rewrite elem_of_cons. auto.
      * exists x. rewrite elem_of_cons. auto.
    + intros [?|(x & Hx & ?)]; auto.
      apply elem_of_cons in Hx as [->|Hx]; eauto.
Qed.

Lemma edges_add_edges_from es : ∀ G,
  Nx.edges (Nx.add_edges_from G es) = Nx.edges G ++ es.
Proof.
  unfold Nx.add_edges_from.
  induction es as [|e es IH]; intros G; simpl.
  - by rewrite app_nil_r.
  - by rewrite IH, edges_add_edge, <- app_assoc.
Qed.

Lemma closed_empty : Nx.closed (@Nx.empty V).
Proof. intros e He. by apply elem_of_nil in He. Qed.

Lemma closed_add_nodes_from G ns :
  Nx.closed G → Nx.closed (Nx.add_nodes_from G ns).
Proof.
  intros Hcl e. rewrite edges_add_nodes_from, !nodes_add_nodes_from.
  intros He. destruct (Hcl e He). auto.
Qed.

Lemma closed_add_edges_from G es :
  Nx.closed G → Nx.closed (Nx.add_edges_from G es).
Proof.
  intros Hcl e. rewrite edges_add_edges_from, !nodes_add_edges_from.
  intros He. apply elem_of_app in He as [He|He].
  - destruct (Hcl e He). auto.
  - split; right; exists e; auto.
Qed.

Lemma adjacent_add_edges_from G es u v :
  Nx.adjacent (Nx.add_edges_from G es) u v
  ↔ Nx.adjacent G u v ∨ (u, v) ∈ es ∨ (v, u) ∈ es.
Proof.
  unfold Nx.adjacent. rewrite edges_add_edges_from, !elem_of_app. tauto.
Qed.

Lemma connected_add_edges_from G es u v :
  Nx.connected G u v → Nx.connected (Nx.add_edges_from G es) u v.
Proof.
  apply rtc_subrel. intros x y Hxy. apply adjacent_add_edges_from. auto.
Qed.
End components_facts.

(** * Facts about the frame operations *)
Section pd_facts.

Lemma elem_of_drop_duplicates {A} `{EqDecision A} (l : list A) x :
  x ∈ drop_duplicates l ↔ x ∈ l.
Proof.
  induction l as [|y l IH]; simpl; [done|].
  rewrite !elem_of_cons, list_elem_of_filter, IH.
  destruct (decide (x = y)); tauto.
Qed.

Lemma NoDup_drop_duplicates {A} `{EqDecision A} (l : list A) :
  NoDup (drop_duplicates l).
Proof.
  induction l as [|y l IH]; simpl; [constructor|].
  apply NoDup_cons. split; [|by apply NoDup_filter].
  rewrite list_elem_of_filter. tauto.
Qed.

Lemma elem_of_merge_index {K A B} `{EqDecision K}
    (left : list (K * A)) (right : list (K * B)) k a b :
  (k, (a, b)) ∈ merge_index left right ↔ (k, a) ∈ left ∧ (k, b) ∈ right.
Proof.
  unfold merge_index. rewrite list_elem_of_bind. split.
  - intros ([k1 a1] & Hx & Hl). apply list_elem_of_bind in Hx as ([k2 b1] & Hx & Hr).
    simpl in Hx. case_decide; [|by apply elem_of_nil in Hx].
    apply list_elem_of_singleton in Hx. by simplify_eq.
  - intros [Hl Hr]. exists (k, a). split; [|done].
    apply list_elem_of_bind. exists (k, b). split; [|done]. simpl.
    rewrite decide_True by done. by apply list_elem_of_singleton.
Qed.

Lemma elem_of_dropna df k a :
  (k, a) ∈ dropna df ↔ (∃ cells, (cells, Some a) ∈ df ∧ complete cells = Some k).
Proof.
  unfold dropna. rewrite list_elem_of_omap. split.
  - intros ([cells o] & Hr & Hd). unfold dropna_row in Hd. simpl in Hd.
    destruct (complete cells) eqn:Hc; [|done]. destruct o; [|done].
    simplify_eq. eauto.
  - intros (cells & Hr & Hc). exists (cells, Some a). split; [done|].
    unfold dropna_row. simpl. by rewrite Hc.
Qed.

(** With one right row per key at most, a left merge keeps the rows of the
    left frame as they are and looks the key up. *)
Lemma filter_key_NoDup {K B} `{EqDecision K} (right : list (K * B)) k :
  NoDup (right.*1) →
  filter (λ kb, kb.1 = k) right = [] ∧ (∀ v, (k, v) ∉ right)
  ∨ ∃ v, filter (λ kb, kb.1 = k) right = [(k, v)] ∧ (k, v) ∈ right.
Proof.
  induction right as [|[k1 v1] right IH]; simpl; intros Hnd.
  - left. split; [done|]. intros v Hv. by apply elem_of_nil in Hv.
  - apply NoDup_cons in Hnd as [Hk1 Hnd]. rewrite filter_cons. simpl.
    destruct (IH Hnd) as [[Hf Hno]|(v & Hf & Hin)]; case_decide; subst.
    + right. exists v1. rewrite Hf. split; [done|]. apply elem_of_cons. auto.
    + left. split; [done|]. intros v Hv.
      apply elem_of_cons in Hv as [?|Hv]; [by simplify_eq|]. by apply (Hno v).
    + exfalso. apply Hk1. apply list_elem_of_fmap. by exists (k, v).
    + right. exists v. split; [done|]. apply elem_of_cons. auto.
Qed.

Lemma merge_left_dict {R} (key : R → Z) (left : list R) (d : gmap Z nat) :
  merge_left key left (frame_of_dict d) = (λ r, (r, d !! key r)) <$> left.
Proof.
  unfold merge_left, frame_of_dict.
  induction left as [|r left IH]; [done|].
  rewrite bind_cons, IH, fmap_cons. f_equal.
  destruct (filter_key_NoDup (map_to_list d) (key r)) as [[Hf Hno]|(v & Hf & Hin)].
  - apply NoDup_fst_map_to_list.
  - rewrite Hf. destruct (d !! key r) as [v|] eqn:Hd; [|done].
    apply elem_of_map_to_list in Hd. by destruct (Hno v).
  - rewrite Hf. apply elem_of_map_to_list in Hin. by rewrite Hin.
Qed.
End pd_facts.

(** * Facts about the label dict *)
Section dict_facts.
Implicit Types (d : gmap Z nat) (g : list Z) (gs : list (list Z)).

Lemma lookup_store_group d g (idx : nat) (x : Z) :
  foldl (λ d' id, <[id := idx]> d') d g !! x
  = if decide (x ∈ g) then Some idx else d !! x.
Proof.
  revert d. induction g as [|y g IH]; intros d; [done|].
  cbn [foldl]. rewrite IH. destruct (decide (x ∈ g)) as [Hg|Hg].
  - rewrite decide_True; [done|]. apply elem_of_cons. auto.
  - destruct (decide (x = y)) as [->|Hne].
    + rewrite lookup_insert_eq, decide_True; [done|]. apply elem_of_cons. auto.
    + rewrite lookup_insert_ne by done. rewrite decide_False; [done|].
      rewrite elem_of_cons. tauto.
Qed.

Lemma grouped_ids_dict_snoc gs g (x : Z) :
  grouped_ids_dict (gs ++ [g]) !! x
  = if decide (x ∈ g) then Some (length gs) else grouped_ids_dict gs !! x.
Proof.
  unfold grouped_ids_dict, enumerate.
  rewrite imap_app, foldl_app. simpl. rewrite lookup_store_group.
  by rewrite Nat.add_0_r.
Qed.

(** The dict maps an identifier to the position of the last group that
    holds it, and holds nothing else. *)
Lemma grouped_ids_dict_Some gs (x : Z) (i : nat) :
  grouped_ids_dict gs !! x = Some i
  ↔ (∃ g, gs !! i = Some g ∧ x ∈ g)
    ∧ ∀ j g', gs !! j = Some g' → x ∈ g' → j ≤ i.
Proof.
  revert i. induction gs as [|g gs IH] using rev_ind; intros i.
  - unfold grouped_ids_dict. simpl. rewrite lookup_empty. split; [done|].
    intros [(g & Hg & _) _]. by rewrite lookup_nil in Hg.
  - rewrite grouped_ids_dict_snoc. case_decide as Hx.
    + split.
      * intros [= <-]. split.
        -- exists g. split; [|done]. by rewrite list_lookup_middle.
        -- intros j g' Hj _. apply lookup_lt_Some in Hj.
           rewrite length_app in Hj. simpl in Hj. lia.
      * intros [(g0 & Hg0 & _) Hlast].
        pose proof (lookup_lt_Some _ _ _ Hg0) as Hlt.
        rewrite length_app in Hlt. simpl in Hlt.
        specialize (Hlast (length gs) g (list_lookup_middle _ _ _ _ eq_refl) Hx).
        f_equal. lia.
    + rewrite IH. split.
      * intros [(g0 & Hg0 & Hx0) Hlast]. split.
        -- exists g0. split; [|done]. by apply lookup_app_l_Some.
        -- intros j g' Hj Hx'. apply lookup_app_Some in Hj as [Hj|[_ Hj]]; [eauto|].
           apply list_lookup_singleton_Some in Hj as [_ <-]. done.
      * intros [(g0 & Hg0 & Hx0) Hlast]. split.
        -- exists g0. split; [|done].
           apply lookup_app_Some in Hg0 as [Hg0|[_ Hg0]]; [done|].
           apply list_lookup_singleton_Some in Hg0 as [_ <-]. done.
        -- intros j g' Hj Hx'. apply (Hlast j g'); [|done].
           by apply lookup_app_l_Some.
Qed.


(** An identifier held by the group at position [i] only is mapped to [i]. *)
Lemma grouped_ids_dict_unique gs g (x : Z) (i : nat) :
  gs !! i = Some g → x ∈ g →
  (∀ j g', gs !! j = Some g' → x ∈ g' → j = i) →
  grouped_ids_dict gs !! x = Some i.
Proof.
  intros Hg Hx Huniq. apply grouped_ids_dict_Some. split; [eauto|].
  intros j g' Hj Hx'. by rewrite (Huniq j g' Hj Hx').
Qed.
End dict_facts.

(** * The two graphs of [get_client_family_ids] *)
Section resolution_facts.
Variables (hmis : list hmis_row) (cp : list cp_row)
          (hd cd : list link_plus_row) (m : list match_row).

Lemma edges_G_individuals :
  Nx.edges (G_individuals hmis cp hd cd m) = evidence_edges hd cd m.
Proof.
  unfold G_individuals, evidence_edges.
  rewrite !edges_add_edges_from, !edges_add_nodes_from. simpl.
  by rewrite <- app_assoc.
Qed.

Lemma nodes_G_individuals n :
  n ∈ Nx.nodes (G_individuals hmis cp hd cd m)
  ↔ n ∈ record_nodes hmis cp
    ∨ ∃ e, e ∈ evidence_edges hd cd m ∧ (n = e.1 ∨ n = e.2).
Proof.
  unfold G_individuals, evidence_edges, record_nodes.
  rewrite !nodes_add_edges_from, !nodes_add_nodes_from. simpl.
  rewrite elem_of_nil, !elem_of_app. split.
  - intros [[[[[Hf|?]|?]|(e & ? & ?)]|(e & ? & ?)]|(e & ? & ?)]; auto;
      try (right; exists e; rewrite !elem_of_app; by auto). done.
  - intros [[?|?]|(e & He & ?)]; [tauto..|].
    rewrite !elem_of_app in He. destruct He as [?|[?|?]]; eauto 8.
Qed.

Lemma closed_G_individuals : Nx.closed (G_individuals hmis cp hd cd m).
Proof.
  unfold G_individuals.
  do 3 apply closed_add_edges_from. do 2 apply closed_add_nodes_from.
  apply closed_empty.
Qed.

Lemma closed_G_families : Nx.closed (G_families hmis cp hd cd m).
Proof.
  unfold G_families, Nx.copy.
  do 2 apply closed_add_edges_from. apply closed_G_individuals.
Qed.

Lemma edges_G_families e :
  e ∈ Nx.edges (G_individuals hmis cp hd cd m) →
  e ∈ Nx.edges (G_families hmis cp hd cd m).
Proof.
  unfold G_families, Nx.copy. rewrite !edges_add_edges_from, !elem_of_app. auto.
Qed.

Lemma nodes_G_families n :
  n ∈ Nx.nodes (G_individuals hmis cp hd cd m) →
  n ∈ Nx.nodes (G_families hmis cp hd cd m).
Proof.
  unfold G_families, Nx.copy. rewrite !nodes_add_edges_from. auto.
Qed.

Lemma connected_G_families u v :
  Nx.connected (G_individuals hmis cp hd cd m) u v →
  Nx.connected (G_families hmis cp hd cd m) u v.
Proof.
  apply rtc_subrel. intros x y [?|?]; [left|right]; by apply edges_G_families.
Qed.

Lemma record_node_hmis r :
  r ∈ hmis →
  (h, Raw_Subject_Unique_Identifier r) ∈ Nx.nodes (G_individuals hmis cp hd cd m).
Proof.
  intros Hr. apply nodes_G_individuals. left. apply elem_of_app. left.
  apply list_elem_of_fmap. eauto.
Qed.

Lemma record_node_cp r :
  r ∈ cp → (c, Raw_Clientid r) ∈ Nx.nodes (G_individuals hmis cp hd cd m).
Proof.
  intros Hr. apply nodes_G_individuals. left. apply elem_of_app. right.
  apply list_elem_of_fmap. eauto.
Qed.

Lemma get_client_family_ids_rows :
  get_client_family_ids hmis cp hd cd m
  = ((λ r, (r, label_dict (G_individuals hmis cp hd cd m) h
                 !! Raw_Subject_Unique_Identifier r,
               label_dict (G_families hmis cp hd cd m) h
                 !! Raw_Subject_Unique_Identifier r)) <$> hmis,
     (λ r, (r, label_dict (G_individuals hmis cp hd cd m) c !! Raw_Clientid r,
               label_dict (G_families hmis cp hd cd m) c !! Raw_Clientid r))
       <$> cp).
Proof.
  unfold get_client_family_ids, hmis_individuals, hmis_families,
    cp_individuals, cp_families, create_dataframe_from_grouped_ids.
  rewrite !merge_left_dict, <- !list_fmap_compose. done.
Qed.
End resolution_facts.

Section label_facts.
Implicit Types (G : Nx.Graph Node) (p : prefix) (a : Z).

Lemma elem_of_get_ids_from_nodes p a (ns : list Node) :
  a ∈ get_ids_from_nodes p ns ↔ (p, a) ∈ ns.
Proof.
  unfold get_ids_from_nodes. rewrite list_elem_of_fmap. split.
  - intros ([q b] & -> & Hn). apply list_elem_of_filter in Hn as [Hq Hn].
    simpl in *. by subst.
  - intros Hn. exists (p, a). split; [done|]. by apply list_elem_of_filter.
Qed.

(** The label of a node is the position of its component. *)
Lemma label_dict_component G p a i ci :
  Nx.closed G → Nx.connected_components G !! i = Some ci → (p, a) ∈ ci →
  label_dict G p !! a = Some i.
Proof.
  intros Hcl Hi Ha. unfold label_dict.
  apply (grouped_ids_dict_unique _ (get_ids_from_nodes p ci)).
  - by rewrite list_lookup_fmap, Hi.
  - by apply elem_of_get_ids_from_nodes.
  - intros j g' Hj Hg'. rewrite list_lookup_fmap in Hj.
    destruct (Nx.connected_components G !! j) as [cj|] eqn:Hcj; [|done].
    simpl in Hj. simplify_eq. apply elem_of_get_ids_from_nodes in Hg'.
    destruct (decide (j = i)) as [|Hne]; [done|].
    destruct (components_partition G Hcl) as [_ P2].
    by destruct (P2 j i cj ci (p, a)).
Qed.

Lemma label_dict_connected G p q a b :
  Nx.closed G → (p, a) ∈ Nx.nodes G → Nx.connected G (p, a) (q, b) →
  ∃ label, label_dict G p !! a = Some label ∧ label_dict G q !! b = Some label.
Proof.
  intros Hcl Hn Hc.
  destruct (component_index G (p, a) Hcl Hn) as (i & ci & Hi & Ha & _).
  exists i. split; [by eapply label_dict_component|].
  eapply label_dict_component; [done..|].
  apply (component_class G ci (p, a)); [|done..].
  by eapply list_elem_of_lookup_2.
Qed.
End label_facts.

Section component_shape.
Context {V : Type} `{EqDecision V}.
Implicit Types (G : Nx.Graph V) (v w : V).

Lemma component_is_bfs G c0 :
  c0 ∈ Nx.connected_components G →
  ∃ v, v ∈ Nx.nodes G ∧ v ∈ c0 ∧ c0 = Nx.plain_bfs G v.
Proof.
  intros Hc. destruct (cc_loop_spec G (Nx.nodes G) []) as (A & _).
  { intros ? ? Hn. by apply elem_of_nil in Hn. }
  destruct (A c0 Hc) as (v & Hv & _ & ->). exists v.
  repeat split; [done|]. apply plain_bfs_spec, rtc_refl.
Qed.

Lemma plain_bfs_isolated G v :
  (∀ w, ¬ Nx.adjacent G v w) → Nx.plain_bfs G v = [v].
Proof.
  intros Hno.
  assert (Hn : Nx.neighbors G v = []).
  { apply elem_of_nil_inv. intros w Hw. by apply elem_of_neighbors, Hno in Hw. }
  unfold Nx.plain_bfs, Nx.bfs_fuel.
  replace (2 * length (Nx.edges G) + 3) with (S (2 * length (Nx.edges G) + 2)) by lia.
  cbn [Nx.bfs_loop]. unfold Nx.bfs_level. cbn [foldl]. unfold Nx.visit.
  rewrite decide_False by apply not_elem_of_nil. rewrite Hn.
  cbn [fst snd app]. by destruct (2 * length (Nx.edges G) + 2).
Qed.

Lemma singleton_component G v :
  v ∈ Nx.nodes G → (∀ w, ¬ Nx.adjacent G v w) →
  [v] ∈ Nx.connected_components G.
Proof.
  intros Hv Hno.
  destruct (cc_loop_spec G (Nx.nodes G) []) as (_ & B & _).
  { intros ? ? Hn. by apply elem_of_nil in Hn. }
  destruct (B v Hv) as [Hn|(c0 & Hc & Hvc)]; [by apply elem_of_nil in Hn|].
  destruct (component_is_bfs G c0 Hc) as (x & _ & _ & Heq).
  assert (x = v) as ->.
  { rewrite Heq in Hvc. apply plain_bfs_spec, connected_sym, rtc_inv in Hvc.
    destruct Hvc as [?|(y & Hy & _)]; [done|]. by apply Hno in Hy. }
  rewrite plain_bfs_isolated in Heq by done. by subst.
Qed.
End component_shape.

(** * The edge lists *)
Section edge_facts.

Lemma elem_of_group_edges {R} p (df : list R) group_ids individual_id u v :
  (u, v) ∈ group_edges p df group_ids individual_id
  ↔ ∃ k a b, u = (p, a) ∧ v = (p, b)
      ∧ (∃ r, r ∈ df ∧ complete (group_ids r) = Some k
              ∧ individual_id r = Some a)
      ∧ (∃ r, r ∈ df ∧ complete (group_ids r) = Some k
              ∧ individual_id r = Some b).
Proof.
  unfold group_edges. rewrite list_elem_of_fmap.
  assert (Hrow : ∀ k a,
    (k, a) ∈ drop_duplicates
               (dropna ((λ r, (group_ids r, individual_id r)) <$> df))
    ↔ ∃ r, r ∈ df ∧ complete (group_ids r) = Some k ∧ individual_id r = Some a).
  { intros k a. rewrite elem_of_drop_duplicates, elem_of_dropna. split.
    - intros (cells & Hr & Hc). apply list_elem_of_fmap in Hr as (r & Heq & Hr).
      simplify_eq. eauto.
    - intros (r & Hr & Hc & Hi). exists (group_ids r). split; [|done].
      apply list_elem_of_fmap. exists r. by rewrite Hi. }
  split.
  - intros ([k [a b]] & Heq & He). simpl in Heq. simplify_eq.
    apply elem_of_merge_index in He as [Ha Hb].
    exists k, a, b. rewrite <- !Hrow. auto.
  - intros (k & a & b & -> & -> & Ha & Hb). exists (k, (a, b)).
    split; [done|]. apply elem_of_merge_index. by rewrite !Hrow.
Qed.

Lemma elem_of_matching_edges (m : list match_row) u v :
  (u, v) ∈ matching_edges m
  ↔ ∃ r x y, r ∈ m ∧ clientid r = Some x
      ∧ Subject_Unique_Identifier r = Some y
      ∧ is_Some (complete (other_columns r))
      ∧ u = (c, x) ∧ v = (h, y).
Proof.
  unfold matching_edges. rewrite list_elem_of_fmap. split.
  - intros ([x y] & Heq & Hxy). simpl in Heq. simplify_eq.
    apply list_elem_of_omap in Hxy as (r & Hr & Hd). unfold matching_dropna in Hd.
    destruct (clientid r) eqn:Hx, (Subject_Unique_Identifier r) eqn:Hy,
      (complete (other_columns r)) eqn:Hk; simplify_eq.
    exists r, x, y. rewrite Hk. repeat split; eauto.
  - intros (r & x & y & Hr & Hx & Hy & [k Hk] & -> & ->). exists (x, y).
    split; [done|]. apply list_elem_of_omap. exists r. split; [done|].
    unfold matching_dropna. by rewrite Hx, Hy, Hk.
Qed.

Lemma in_no_evidence_isolated n hd cd m e :
  in_no_evidence n hd cd m → e ∈ evidence_edges hd cd m → n ≠ e.1 ∧ n ≠ e.2.
Proof.
  intros Hno He. destruct e as [u v], n as [p a]. simpl.
  unfold evidence_edges in He. rewrite !elem_of_app in He.
  unfold in_no_evidence in Hno. simpl in Hno.
  destruct He as [He|[He|He]].
  - apply elem_of_group_edges in He
      as (k & x & y & -> & -> & (r1 & Hr1 & _ & Hx) & (r2 & Hr2 & _ & Hy)).
    destruct p; [|by split]. destruct Hno as [Hno _].
    split; intros ?; simplify_eq; [by apply (Hno r1)|by apply (Hno r2)].
  - apply elem_of_group_edges in He
      as (k & x & y & -> & -> & (r1 & Hr1 & _ & Hx) & (r2 & Hr2 & _ & Hy)).
    destruct p; [by split|]. destruct Hno as [Hno _].
    split; intros ?; simplify_eq; [by apply (Hno r1)|by apply (Hno r2)].
  - apply elem_of_matching_edges in He
      as (r & x & y & Hr & Hx & Hy & _ & -> & ->).
    destruct p; destruct Hno as [_ Hno];
      split; intros ?; simplify_eq; by apply (Hno r).
Qed.
End edge_facts.

(** * The claims on the resolution *)

(** C7: the connected components returned for the identity graph and for
    the family graph partition the vertex set of their graph: a node is a
    vertex exactly when some component holds it, and the components at two
    different positions share no node. *)
Theorem components_partition_both_graphs
    (hmis : list hmis_row) (cp : list cp_row)
    (hd cd : list link_plus_row) (m : list match_row) :
  Nx.partitions (Nx.connected_components (G_individuals hmis cp hd cd m))
    (Nx.nodes (G_individuals hmis cp hd cd m))
  ∧ Nx.partitions (Nx.connected_components (G_families hmis cp hd cd m))
      (Nx.nodes (G_families hmis cp hd cd m)).
Proof.
  split; apply components_partition;
    [apply closed_G_individuals|apply closed_G_families].
Qed.

(** C1: in a component of the identity graph that holds the HMIS identifier
    [a] and the Connecting Point identifier [b], the HMIS label frame maps
    [a] to the position of the component and the Connecting Point label
    frame maps [b] to the same position; and a row of the returned HMIS
    frame and a row of the returned Connecting Point frame whose raw
    identifiers are joined by a path of edges carry the same individual
    label. *)
Theorem cross_source_consistency
    (hmis : list hmis_row) (cp : list cp_row)
    (hd cd : list link_plus_row) (m : list match_row) :
  (∀ i ci a b,
     Nx.connected_components (G_individuals hmis cp hd cd m) !! i = Some ci →
     (h, a) ∈ ci → (c, b) ∈ ci →
     (a, i) ∈ hmis_individuals hmis cp hd cd m
     ∧ (b, i) ∈ cp_individuals hmis cp hd cd m)
  ∧ (∀ rh rc,
       rh ∈ (get_client_family_ids hmis cp hd cd m).1 →
       rc ∈ (get_client_family_ids hmis cp hd cd m).2 →
       Nx.connected (G_individuals hmis cp hd cd m)
         (h, Raw_Subject_Unique_Identifier rh.1.1) (c, Raw_Clientid rc.1.1) →
       ∃ label, rh.1.2 = Some label ∧ rc.1.2 = Some label).
Proof.
  pose proof (closed_G_individuals hmis cp hd cd m) as Hcl. split.
  - intros i ci a b Hi Ha Hb.
    unfold hmis_individuals, cp_individuals, create_dataframe_from_grouped_ids,
      frame_of_dict.
    rewrite !elem_of_map_to_list.
    split; by apply (label_dict_component _ _ _ i ci).
  - intros rh rc. rewrite get_client_family_ids_rows. simpl.
    rewrite !list_elem_of_fmap. intros (r1 & -> & Hr1) (r2 & -> & Hr2). simpl.
    apply label_dict_connected; [done|]. by apply record_node_hmis.
Qed.

Lemma cross_source_consistency_witness :
  ∃ label,
    (mk_hmis 100 (Some (Str "X")) (Some (Timestamp 20200101))
       (Some (Timestamp 20150101)), Some 0, Some 0).1.2 = Some label
    ∧ (mk_cp 55 (Some (Int 1)) (Some 40%Z), Some 0, Some 0).1.2 = Some label.
Proof.
  apply (proj2 (cross_source_consistency Scenario.hmis Scenario.cp
                  Scenario.hmis_duplicates Scenario.cp_duplicates
                  Scenario.matching)).
  - apply (list_elem_of_lookup_2 _ 0). vm_compute. reflexivity.
  - apply (list_elem_of_lookup_2 _ 0). vm_compute. reflexivity.
  - simpl. eapply (rtc_l _ _ (h, 101%Z)).
    + left. apply (list_elem_of_lookup_2 _ 1). vm_compute. reflexivity.
    + apply rtc_once. right.
      apply (list_elem_of_lookup_2 _ 8). vm_compute. reflexivity.
Defined.

(** C2: every edge of the identity graph is an edge of the family graph;
    two nodes joined by a path in the identity graph are joined in the
    family graph, so two nodes of one identity component lie in one family
    component; and every identity component is included in one family
    component and in no other. *)
Theorem monotonic_refinement
    (hmis : list hmis_row) (cp : list cp_row)
    (hd cd : list link_plus_row) (m : list match_row) :
  (∀ e, e ∈ Nx.edges (G_individuals hmis cp hd cd m) →
        e ∈ Nx.edges (G_families hmis cp hd cd m))
  ∧ (∀ u v, Nx.same_component (G_individuals hmis cp hd cd m) u v →
            Nx.same_component (G_families hmis cp hd cd m) u v)
  ∧ (∀ ci, ci ∈ Nx.connected_components (G_individuals hmis cp hd cd m) →
       ∃ j cf,
         Nx.connected_components (G_families hmis cp hd cd m) !! j = Some cf
         ∧ ci ⊆ cf
         ∧ ∀ j' cf',
             Nx.connected_components (G_families hmis cp hd cd m) !! j'
               = Some cf' →
             ci ⊆ cf' → j' = j).
Proof.
  pose proof (closed_G_families hmis cp hd cd m) as Hcl.
  assert (Hinc : ∀ ci v0, 
    ci ∈ Nx.connected_components (G_individuals hmis cp hd cd m) → v0 ∈ ci →
    ∃ j cf,
      Nx.connected_components (G_families hmis cp hd cd m) !! j = Some cf
      ∧ ci ⊆ cf
      ∧ ∀ j' cf',
          Nx.connected_components (G_families hmis cp hd cd m) !! j' = Some cf' →
          v0 ∈ cf' → j' = j).
  { intros ci v0 Hci Hv0.
    destruct (component_is_bfs _ ci Hci) as (x & Hx & Hxc & _).
    assert (Hn : v0 ∈ Nx.nodes (G_families hmis cp hd cd m)).
    { apply nodes_G_families.
      apply (closed_connected _ x); [apply closed_G_individuals|done|].
      by apply (component_class (G_individuals hmis cp hd cd m) ci). }
    destruct (component_index _ v0 Hcl Hn) as (j & cf & Hj & Hvf & Huniq).
    exists j, cf. repeat split; [done| |done].
    intros w Hw. apply (component_class (G_families hmis cp hd cd m) cf v0).
    - by eapply list_elem_of_lookup_2.
    - done.
    - apply connected_G_families.
      by apply (component_class (G_individuals hmis cp hd cd m) ci). }
  repeat split.
  - apply edges_G_families.
  - intros u v (ci & Hci & Hu & Hv).
    destruct (Hinc ci u Hci Hu) as (j & cf & Hj & Hsub & _).
    exists cf. repeat split; [by eapply list_elem_of_lookup_2|auto..].
  - intros ci Hci.
    destruct (component_is_bfs _ ci Hci) as (x & _ & Hxc & _).
    destruct (Hinc ci x Hci Hxc) as (j & cf & Hj & Hsub & Huniq).
    exists j, cf. repeat split; [done..|].
    intros j' cf' Hj' Hsub'. apply (Huniq j' cf' Hj'). auto.
Qed.

Lemma monotonic_refinement_witness :
  Nx.same_component
    (G_families Scenario.hmis Scenario.cp Scenario.hmis_duplicates
       Scenario.cp_duplicates Scenario.matching) (h, 100%Z) (c, 56%Z).
Proof.
  apply (proj1 (proj2 (monotonic_refinement Scenario.hmis Scenario.cp
                         Scenario.hmis_duplicates Scenario.cp_duplicates
                         Scenario.matching))).
  exists [(h, 100%Z); (h, 101%Z); (c, 55%Z); (c, 56%Z)]. split; [|split].
  - apply (list_elem_of_lookup_2 _ 0). vm_compute. reflexivity.
  - apply (list_elem_of_lookup_2 _ 0). reflexivity.
  - apply (list_elem_of_lookup_2 _ 3). reflexivity.
Defined.

Lemma components_partition_witness :
  ∃ c0, c0 ∈ Nx.connected_components Scenario.G ∧ (h, 999%Z) ∈ c0.
Proof.
  apply (proj1 (proj1 (components_partition_both_graphs Scenario.hmis
                         Scenario.cp Scenario.hmis_duplicates
                         Scenario.cp_duplicates Scenario.matching))).
  apply (list_elem_of_lookup_2 _ 2). vm_compute. reflexivity.
Defined.

(** C6, as the code has it: the vertices of the identity graph are the raw
    identifiers of the two record frames together with the endpoints of the
    evidence edges; and a raw identifier of a record frame that occurs in no
    evidence file is a component by itself. *)
Theorem identity_graph_vertices
    (hmis : list hmis_row) (cp : list cp_row)
    (hd cd : list link_plus_row) (m : list match_row) :
  (∀ n, n ∈ Nx.nodes (G_individuals hmis cp hd cd m)
        ↔ n ∈ record_nodes hmis cp
          ∨ ∃ e, e ∈ evidence_edges hd cd m ∧ (n = e.1 ∨ n = e.2))
  ∧ (∀ n, n ∈ record_nodes hmis cp → in_no_evidence n hd cd m →
          [n] ∈ Nx.connected_components (G_individuals hmis cp hd cd m)).
Proof.
  split; [apply nodes_G_individuals|].
  intros n Hn Hno. apply singleton_component.
  - apply nodes_G_individuals. auto.
  - intros w. unfold Nx.adjacent. rewrite edges_G_individuals.
    intros [He|He]; destruct (in_no_evidence_isolated n hd cd m _ Hno He);
      done.
Qed.

Lemma identity_graph_vertices_witness :
  [(h, 999%Z)] ∈ Nx.connected_components Scenario.G.
Proof.
  apply (proj2 (identity_graph_vertices Scenario.hmis Scenario.cp
                  Scenario.hmis_duplicates Scenario.cp_duplicates
                  Scenario.matching)).
  - apply (list_elem_of_lookup_2 _ 2). reflexivity.
  - split; intros r Hr;
      repeat (apply elem_of_cons in Hr as [->|Hr]; [done|]);
      by apply elem_of_nil in Hr.
Defined.

(** C6, as the claim has it, fails: an identifier of a duplicates file that
    is in no record frame is a vertex of the identity graph all the same. *)
Lemma identity_graph_vertices_counterexample :
  ¬ (∀ n, n ∈ Nx.nodes (G_individuals [] []
                          [mk_link (Some (Int 1)) (Some 100%Z)] [] [])
          ↔ n ∈ record_nodes [] []).
Proof.
  intros Heq. destruct (Heq (h, 100%Z)) as [Hn _].
  assert (Hin : (h, 100%Z) ∈ record_nodes [] []).
  { apply Hn. apply (list_elem_of_lookup_2 _ 0). vm_compute. reflexivity. }
  by apply elem_of_nil in Hin.
Qed.

(** * The claims on the label frames *)

(** C3, as the code has it: the dict comprehension raises nothing.  The
    label frame holds [(x, i)] exactly when [i] is the position of the
    last group holding [x]; so an identifier held by one group only is
    mapped to the position of that group and to nothing else. *)
Theorem label_frame_last_group (grouped_ids : list (list Z)) :
  (∀ x i, (x, i) ∈ create_dataframe_from_grouped_ids grouped_ids
          ↔ (∃ g, grouped_ids !! i = Some g ∧ x ∈ g)
            ∧ ∀ j g', grouped_ids !! j = Some g' → x ∈ g' → j ≤ i)
  ∧ (∀ x i g, grouped_ids !! i = Some g → x ∈ g →
       (∀ j g', grouped_ids !! j = Some g' → x ∈ g' → j = i) →
       ∀ i', (x, i') ∈ create_dataframe_from_grouped_ids grouped_ids
             ↔ i' = i).
Proof.
  assert (Hframe : ∀ x i,
    (x, i) ∈ create_dataframe_from_grouped_ids grouped_ids
    ↔ grouped_ids_dict grouped_ids !! x = Some i).
  { intros x i. unfold create_dataframe_from_grouped_ids, frame_of_dict.
    apply elem_of_map_to_list. }
  split.
  - intros x i. by rewrite Hframe, grouped_ids_dict_Some.
  - intros x i g Hg Hx Huniq i'. rewrite Hframe.
    rewrite (grouped_ids_dict_unique grouped_ids g x i) by done.
    split; [by intros [= <-]|by intros ->].
Qed.

Lemma label_frame_last_group_witness :
  (8%Z, 2) ∈ create_dataframe_from_grouped_ids
               [[1; 2; 3]; [4; 5; 6]; [7; 8]; [9]]%Z.
Proof.
  apply (proj2 (label_frame_last_group [[1; 2; 3]; [4; 5; 6]; [7; 8]; [9]]%Z)
           8%Z 2 [7; 8]%Z); [| | |reflexivity].
  - reflexivity.
  - apply (list_elem_of_lookup_2 _ 1). reflexivity.
  - intros [|[|[|[|j]]]] g' Hj Hx; simpl in Hj; simplify_eq; [| |done|].
    + repeat (apply elem_of_cons in Hx as [?|Hx]; [done|]).
      by apply elem_of_nil in Hx.
    + repeat (apply elem_of_cons in Hx as [?|Hx]; [done|]).
      by apply elem_of_nil in Hx.
    + repeat (apply elem_of_cons in Hx as [?|Hx]; [done|]).
      by apply elem_of_nil in Hx.
Defined.

(** C3, as the claim has it, fails: with the identifier 1 in two groups,
    a label frame is returned, and it maps 1 to the later group. *)
Lemma duplicate_identifier_counterexample :
  (1%Z ∈ [1%Z] ∧ [[1%Z]; [1%Z]] !! 0 = Some [1%Z]
   ∧ [[1%Z]; [1%Z]] !! 1 = Some [1%Z])
  ∧ create_dataframe_from_grouped_ids [[1%Z]; [1%Z]] = [(1%Z, 1)].
Proof.
  split; [|by vm_compute].
  split; [|done]. by apply list_elem_of_singleton.
Qed.

(** * The claims on the edge lists *)

(** C9, on the failing input: a row of the matching file with both
    identifiers and an empty cell in another column gives no edge, for
    [dropna] is called on the whole frame. *)
Theorem matching_edges_whole_row_dropna :
  matching_edges [mk_match (Some 55%Z) (Some 101%Z) [None]] = [].
Proof. reflexivity. Qed.

(** The rows kept by [matching_edges] are those with no cell missing in
    any column; each gives one edge, in the order of the file. *)
Lemma matching_edges_kept (m : list match_row) :
  matching_edges m
  = omap (λ r, match clientid r, Subject_Unique_Identifier r with
               | Some x, Some y =>
                   if decide (is_Some (complete (other_columns r)))
                   then Some ((c, x), (h, y)) else None
               | _, _ => None
               end) m.
Proof.
  unfold matching_edges. induction m as [|r m IH]; [done|].
  cbn [omap list_omap fmap list_fmap]. unfold matching_dropna at 1.
  cbn [omap list_omap fmap list_fmap] in IH.
  destruct (clientid r), (Subject_Unique_Identifier r),
    (complete (other_columns r)); simpl; try exact IH.
  f_equal. exact IH.
Qed.

(** * The claims on child status *)



(** * Self-loops and connectivity *)
Section self_loops.
Context {V : Type} `{EqDecision V}.
Implicit Types (G : Nx.Graph V) (u v w : V).

Lemma connected_without_self_loops G es u v :
  Nx.connected (Nx.add_edges_from G es) u v
  ↔ Nx.connected (Nx.add_edges_from G (Nx.without_self_loops es)) u v.
Proof.
  split.
  - induction 1 as [|x y z Hxy _ IH]; [apply rtc_refl|].
    destruct (decide (x = y)) as [->|Hne]; [done|].
    eapply rtc_l; [|exact IH].
    apply adjacent_add_edges_from. apply adjacent_add_edges_from in Hxy.
    unfold Nx.without_self_loops. rewrite !list_elem_of_filter. simpl.
    destruct Hxy as [?|[?|?]]; auto.
  - apply rtc_subrel. intros x y Hxy.
    apply adjacent_add_edges_from. apply adjacent_add_edges_from in Hxy.
    unfold Nx.without_self_loops in Hxy. rewrite !list_elem_of_filter in Hxy.
    tauto.
Qed.

Lemma same_component_iff G u v :
  Nx.closed G →
  Nx.same_component G u v ↔ u ∈ Nx.nodes G ∧ Nx.connected G u v.
Proof.
  intros Hcl. destruct (components_partition G Hcl) as [P1 _]. split.
  - intros (c0 & Hc & Hu & Hv). split; [apply P1; eauto|].
    by apply (component_class G c0).
  - intros [Hu Huv]. apply P1 in Hu as (c0 & Hc & Hu).
    exists c0. repeat split; [done..|]. by apply (component_class G c0 u).
Qed.

Lemma connected_ne_node G u v :
  Nx.closed G → Nx.connected G u v → u ≠ v → u ∈ Nx.nodes G.
Proof.
  intros Hcl Huv Hne. apply rtc_inv in Huv as [?|(y & [He|He] & _)]; [done| |];
    by destruct (Hcl _ He).
Qed.

Lemma same_component_without_self_loops G es u v :
  Nx.closed G → u ≠ v →
  Nx.same_component (Nx.add_edges_from G es) u v
  ↔ Nx.same_component (Nx.add_edges_from G (Nx.without_self_loops es)) u v.
Proof.
  intros Hcl Hne.
  rewrite !same_component_iff by by apply closed_add_edges_from.
  rewrite <- connected_without_self_loops. split; intros [_ Hc]; (split; [|done]).
  - apply (connected_ne_node _ u v); [by apply closed_add_edges_from| |done].
    by apply (proj1 (connected_without_self_loops G es u v)).
  - apply (connected_ne_node _ u v); [by apply closed_add_edges_from|done..].
Qed.
End self_loops.

Section group_edges_facts.
Context {R : Type}.
Implicit Types (df : list R) (p : prefix).

Lemma dropna_project df (group_ids : R → list cell) (individual_id : R → option Z) :
  drop_duplicates (dropna ((λ r, (group_ids r, individual_id r)) <$> df))
  = kept_rows df group_ids individual_id.
Proof.
  unfold kept_rows, dropna. f_equal.
  induction df as [|r df IH]; [done|].
  cbn [fmap list_fmap omap list_omap]. unfold dropna_row at 1. simpl.
  cbn [fmap list_fmap omap list_omap] in IH. rewrite IH.
  by destruct (complete (group_ids r)), (individual_id r).
Qed.

Lemma fmap_merge_index {K A B C} `{EqDecision K} (g : K * (A * B) → C)
    (left : list (K * A)) (right : list (K * B)) :
  g <$> merge_index left right
  = x ← left; y ← right;
    if decide (x.1 = y.1) then [g (x.1, (x.2, y.2))] else [].
Proof.
  unfold merge_index.
  assert (Hrow : ∀ x : K * A,
    g <$> (right ≫= λ r, if decide (x.1 = r.1)
                         then [(x.1, (x.2, r.2))] else [])
    = right ≫= λ y, if decide (x.1 = y.1)
                    then [g (x.1, (x.2, y.2))] else []).
  { intros x. induction right as [|y right IHr]; [done|].
    rewrite !bind_cons, fmap_app, IHr. f_equal. by case_decide. }
  induction left as [|x left IH]; [done|].
  by rewrite !bind_cons, fmap_app, IH, Hrow.
Qed.

Lemma group_edges_pairs_sharing_key p df group_ids individual_id :
  group_edges p df group_ids individual_id
  = pairs_sharing_key p df group_ids individual_id.
Proof.
  unfold group_edges, pairs_sharing_key.
  by rewrite fmap_merge_index, dropna_project.
Qed.
End group_edges_facts.

(** C4: the edge list of [group_edges] is the list of the specification:
    of the rows that miss no grouping cell and no identifier, taken once
    each, every pair under one key, tagged with the prefix.  The rows
    paired are a list without repetition that holds a key and an
    identifier exactly when a row of the frame has them, all cells
    present: a row that is repeated in the frame is paired as often as a
    row that is not.  An edge
    joins [u] to [v] exactly when two such rows with one key carry their
    identifiers; a kept identifier is joined to itself, in a group of one
    as in any other.  In a graph to which the list is added, two different
    nodes are joined by a path, and lie in one returned component, exactly
    when they do with the self-loops left out. *)
Theorem group_edges_spec {R} (p : prefix) (df : list R)
    (group_ids : R → list cell) (individual_id : R → option Z)
    (ns : list Node) (es : list (Node * Node)) :
  group_edges p df group_ids individual_id
    = pairs_sharing_key p df group_ids individual_id
  ∧ (∃ rows : list (list scalar * Z),
       NoDup rows
       ∧ (∀ k a, (k, a) ∈ rows
                 ↔ ∃ r, r ∈ df ∧ complete (group_ids r) = Some k
                        ∧ individual_id r = Some a)
       ∧ group_edges p df group_ids individual_id
         = (x ← rows; y ← rows;
            if decide (x.1 = y.1) then [((p, x.2), (p, y.2))] else []))
  ∧ (∀ u v,
       (u, v) ∈ group_edges p df group_ids individual_id
       ↔ ∃ k a b, u = (p, a) ∧ v = (p, b)
           ∧ (∃ r, r ∈ df ∧ complete (group_ids r) = Some k
                   ∧ individual_id r = Some a)
           ∧ (∃ r, r ∈ df ∧ complete (group_ids r) = Some k
                   ∧ individual_id r = Some b))
  ∧ (∀ r k a, r ∈ df → complete (group_ids r) = Some k →
       individual_id r = Some a →
       ((p, a), (p, a)) ∈ group_edges p df group_ids individual_id)
  ∧ (∀ u v, u ≠ v →
       let G := Nx.add_edges_from (Nx.add_nodes_from Nx.empty ns) es in
       let edges := group_edges p df group_ids individual_id in
       (Nx.connected (Nx.add_edges_from G edges) u v
        ↔ Nx.connected (Nx.add_edges_from G (Nx.without_self_loops edges)) u v)
       ∧ (Nx.same_component (Nx.add_edges_from G edges) u v
          ↔ Nx.same_component
              (Nx.add_edges_from G (Nx.without_self_loops edges)) u v)).
Proof.
  split; [apply group_edges_pairs_sharing_key|].
  split.
  { exists (kept_rows df group_ids individual_id). split; [|split].
    - apply NoDup_drop_duplicates.
    - intros k a. unfold kept_rows.
      rewrite elem_of_drop_duplicates, list_elem_of_omap. split.
      + intros (r & Hr & Hka).
        destruct (complete (group_ids r)) as [k'|] eqn:Hk; [|done].
        destruct (individual_id r) as [a'|] eqn:Ha; [|done].
        simplify_eq. eauto.
      + intros (r & Hr & Hk & Ha). exists r. split; [done|].
        by rewrite Hk, Ha.
    - apply group_edges_pairs_sharing_key. }
  split; [apply elem_of_group_edges|]. split.
  - intros r k a Hr Hk Ha. apply elem_of_group_edges.
    exists k, a, a. eauto 10.
  - intros u v Hne G edges. split.
    + apply connected_without_self_loops.
    + apply same_component_without_self_loops; [|done].
      apply closed_add_edges_from, closed_add_nodes_from, closed_empty.
Qed.

Lemma group_edges_spec_witness :
  Nx.same_component
    (Nx.add_edges_from
       (Nx.add_edges_from (Nx.add_nodes_from Nx.empty [(h, 999%Z)]) [])
       (group_edges h Scenario.hmis_duplicates (λ r, [Set_ID r]) Linked))
    (h, 100%Z) (h, 101%Z)
  ↔ Nx.same_component
      (Nx.add_edges_from
         (Nx.add_edges_from (Nx.add_nodes_from Nx.empty [(h, 999%Z)]) [])
         (Nx.without_self_loops
            (group_edges h Scenario.hmis_duplicates (λ r, [Set_ID r]) Linked)))
      (h, 100%Z) (h, 101%Z).
Proof.
  assert (Hne : (h, 100%Z) ≠ (h, 101%Z)) by done.
  apply (proj2 (proj2 (proj2 (proj2 (proj2
           (group_edges_spec h Scenario.hmis_duplicates (λ r, [Set_ID r]) Linked
              [(h, 999%Z)] [])))) (h, 100%Z) (h, 101%Z) Hne)).
Defined.

(** * Grouping and [transform] *)
Section transform_facts.
Context {K : Type} `{EqDecision K}.
Implicit Types (col result : list bool) (idxs : list nat)
               (gs : list (K * list nat)).

Lemma any_true (l : list bool) : any l = true ↔ true ∈ l.
Proof.
  induction l as [|b l IH]; simpl.
  - split; [done|]. intros Hn. by apply elem_of_nil in Hn.
  - rewrite elem_of_cons, orb_true_iff, IH. split; intros [?|?]; auto.
Qed.

Lemma any_select col idxs :
  any (omap (λ i, col !! i) idxs) = true
  ↔ ∃ i, i ∈ idxs ∧ col !! i = Some true.
Proof. by rewrite any_true, list_elem_of_omap. Qed.

Lemma length_write_group result idxs (v : bool) :
  length (foldl (λ r i, <[i:=v]> r) result idxs) = length result.
Proof.
  revert result. induction idxs as [|i idxs IH]; intros result; [done|].
  cbn [foldl]. by rewrite IH, length_insert.
Qed.

Lemma lookup_write_group result idxs (v : bool) (j : nat) :
  foldl (λ r i, <[i:=v]> r) result idxs !! j
  = if decide (j ∈ idxs) then (λ _, v) <$> result !! j else result !! j.
Proof.
  revert result. induction idxs as [|i idxs IH]; intros result; [done|].
  cbn [foldl]. rewrite IH, list_lookup_insert.
  destruct (decide (j ∈ i :: idxs)) as [Hj|Hj].
  - destruct (decide (i = j ∧ i < length result)) as [[-> Hlt]|Hi].
    + apply lookup_lt_is_Some in Hlt as [b ->]. by case_decide.
    + case_decide; [done|]. apply elem_of_cons in Hj as [->|?]; [|done].
      rewrite lookup_ge_None_2; [done|]. lia.
  - rewrite elem_of_cons in Hj.
    rewrite decide_False by tauto. rewrite decide_False; [done|].
    intros [? _]. auto.
Qed.

Lemma length_transform_any gs col :
  length (transform_any gs col) = length col.
Proof.
  unfold transform_any.
  match goal with
  | |- length (foldl ?f col gs) = _ =>
      assert (Hlen : ∀ result, length (foldl f result gs) = length result)
  end; [|apply Hlen].
  induction gs as [|g gs IH]; intros result; [done|].
  cbn [foldl]. rewrite IH. cbn zeta. apply length_write_group.
Qed.

Lemma transform_any_outside gs col : ∀ result j,
  (∀ g, g ∈ gs → j ∉ g.2) →
  foldl (λ result g,
           let res := any (omap (λ i, col !! i) g.2) in
           foldl (λ result' i, <[i:=res]> result') result g.2) result gs !! j
  = result !! j.
Proof.
  induction gs as [|g gs IH]; intros result j Hno; [done|].
  cbn [foldl]. rewrite IH.
  - cbn zeta. rewrite lookup_write_group, decide_False; [done|].
    apply Hno, elem_of_cons. auto.
  - intros g' Hg'. apply Hno, elem_of_cons. auto.
Qed.

Lemma transform_any_inside gs col : ∀ result j g,
  g ∈ gs → j ∈ g.2 → (∀ g', g' ∈ gs → j ∈ g'.2 → g' = g) →
  foldl (λ result g,
           let res := any (omap (λ i, col !! i) g.2) in
           foldl (λ result' i, <[i:=res]> result') result g.2) result gs !! j
  = (λ _, any (omap (λ i, col !! i) g.2)) <$> result !! j.
Proof.
  induction gs as [|g0 gs IH]; intros result j g Hg Hj Huniq.
  { by apply elem_of_nil in Hg. }
  cbn [foldl]. destruct (decide (g ∈ gs)) as [Hin|Hout].
  - rewrite (IH _ j g Hin Hj).
    + cbn zeta. rewrite lookup_write_group.
      case_decide; [|done]. by destruct (result !! j).
    + intros g' Hg'. apply Huniq, elem_of_cons. auto.
  - apply elem_of_cons in Hg as [->|?]; [|done].
    rewrite transform_any_outside.
    + cbn zeta. by rewrite lookup_write_group, decide_True.
    + intros g' Hg' Hj'. apply Hout.
      rewrite <- (Huniq g'); [done| |done]. apply elem_of_cons. auto.
Qed.
Lemma transform_any_group gs col j g :
  g ∈ gs → j ∈ g.2 → (∀ g', g' ∈ gs → j ∈ g'.2 → g' = g) →
  transform_any gs col !! j
  = (λ _, any (omap (λ i, col !! i) g.2)) <$> col !! j.
Proof. apply transform_any_inside. Qed.
End transform_facts.

Section groupby_facts.
Context {R K : Type} `{EqDecision K}.
Implicit Types (df : list R) (key : R → option K) (col : list bool).

Lemma elem_of_group_positions df key k j :
  j ∈ filter (λ i, df !! i ≫= key = Some k) (seq 0 (length df))
  ↔ ∃ r, df !! j = Some r ∧ key r = Some k.
Proof.
  rewrite list_elem_of_filter, elem_of_seq. split.
  - intros [Hk _]. destruct (df !! j) as [r|]; [|done]. eauto.
  - intros (r & Hj & Hk). rewrite Hj. split; [done|].
    apply lookup_lt_Some in Hj. lia.
Qed.

Lemma elem_of_groupby df key g :
  g ∈ groupby key df
  ↔ (∃ r, r ∈ df ∧ key r = Some g.1)
    ∧ g.2 = filter (λ i, df !! i ≫= key = Some g.1) (seq 0 (length df)).
Proof.
  unfold groupby. rewrite list_elem_of_fmap. split.
  - intros (k & -> & Hk). simpl. split; [|done].
    by apply elem_of_drop_duplicates, list_elem_of_omap in Hk.
  - intros [Hk Hg]. exists g.1. split.
    + destruct g as [k idxs]. simpl in *. by subst.
    + by apply elem_of_drop_duplicates, list_elem_of_omap.
Qed.

(** The value written on a row with a key: whether some row of the same
    key holds [true] in the column. *)
Lemma transform_any_groupby df key col j r k :
  length col = length df → df !! j = Some r → key r = Some k →
  ∃ b, transform_any (groupby key df) col !! j = Some b
       ∧ (b = true ↔ ∃ i r', df !! i = Some r' ∧ key r' = Some k
                             ∧ col !! i = Some true).
Proof.
  intros Hlen Hj Hk.
  set (idxs := filter (λ i, df !! i ≫= key = Some k) (seq 0 (length df))).
  assert (Hg : (k, idxs) ∈ groupby key df).
  { apply elem_of_groupby. split; [|done]. exists r. split; [|done].
    by eapply list_elem_of_lookup_2. }
  assert (Hjg : j ∈ idxs) by (apply elem_of_group_positions; eauto).
  exists (any (omap (λ i, col !! i) idxs)). split.
  - rewrite (transform_any_group _ col j (k, idxs) Hg Hjg).
    + destruct (lookup_lt_is_Some_2 col j) as [b ->]; [|done].
      rewrite Hlen. by eapply lookup_lt_Some.
    + intros [k' idxs'] Hg' Hj'. apply elem_of_groupby in Hg' as [_ Heq].
      simpl in *. subst idxs'.
      apply elem_of_group_positions in Hj' as (r' & Hr' & Hk').
      rewrite Hj in Hr'. simplify_eq. done.
  - rewrite any_select. split.
    + intros (i & Hi & Hc). apply elem_of_group_positions in Hi as (r' & ? & ?).
      eauto.
    + intros (i & r' & Hi & Hk' & Hc). exists i. split; [|done].
      apply elem_of_group_positions. eauto.
Qed.
End groupby_facts.

(** * The claim on the family flags *)




(** * Further facts on the labels *)
Section more_label_facts.
Implicit Types (G : Nx.Graph Node) (p q : prefix) (a b : Z).

Lemma label_dict_Some G p a i :
  Nx.closed G →
  label_dict G p !! a = Some i
  ↔ ∃ ci, Nx.connected_components G !! i = Some ci ∧ (p, a) ∈ ci.
Proof.
  intros Hcl. split.
  - unfold label_dict. rewrite grouped_ids_dict_Some.
    intros [(g & Hg & Ha) _]. rewrite list_lookup_fmap in Hg.
    destruct (Nx.connected_components G !! i) as [ci|]; [|done].
    simpl in Hg. simplify_eq. exists ci. split; [done|].
    by apply elem_of_get_ids_from_nodes.
  - intros (ci & Hi & Ha). by eapply label_dict_component.
Qed.

Lemma label_dict_is_Some G p a :
  Nx.closed G → (p, a) ∈ Nx.nodes G → is_Some (label_dict G p !! a).
Proof.
  intros Hcl Hn.
  destruct (component_index G (p, a) Hcl Hn) as (i & ci & Hi & Ha & _).
  exists i. by eapply label_dict_component.
Qed.




End more_label_facts.

(** X1: every row of the two returned frames carries an individual label
    and a family label; the left merges leave no null. *)
Theorem no_record_left_unlabelled
    (hmis : list hmis_row) (cp : list cp_row)
    (hd cd : list link_plus_row) (m : list match_row) :
  Forall (λ r, is_Some r.1.2 ∧ is_Some r.2)
    (get_client_family_ids hmis cp hd cd m).1
  ∧ Forall (λ r, is_Some r.1.2 ∧ is_Some r.2)
      (get_client_family_ids hmis cp hd cd m).2.
Proof.
  rewrite get_client_family_ids_rows. simpl.
  split; apply Forall_fmap, Forall_forall; intros r Hr; simpl; split;
    apply label_dict_is_Some;
    first [apply closed_G_individuals | apply closed_G_families | idtac];
    first [by apply record_node_hmis | by apply record_node_cp
          | by apply nodes_G_families, record_node_hmis
          | by apply nodes_G_families, record_node_cp].
Qed.





Section more_graph_facts.
Context {V : Type} `{EqDecision V}.
Implicit Types (G : Nx.Graph V) (v w : V).

Lemma add_node_present G v : v ∈ Nx.nodes G → Nx.add_node G v = G.
Proof. intros Hv. unfold Nx.add_node. by rewrite decide_True. Qed.

Lemma nodes_add_edges_from_present es : ∀ G,
  (∀ e, e ∈ es → e.1 ∈ Nx.nodes G ∧ e.2 ∈ Nx.nodes G) →
  Nx.nodes (Nx.add_edges_from G es) = Nx.nodes G.
Proof.
  unfold Nx.add_edges_from.
  induction es as [|e es IH]; intros G Hes; [done|]. cbn [foldl].
  destruct (Hes e) as [H1 H2]; [apply elem_of_cons; auto|].
  assert (Hn : Nx.nodes (Nx.add_edge G e) = Nx.nodes G).
  { unfold Nx.add_edge. simpl. rewrite (add_node_present G e.1) by done.
    by rewrite add_node_present. }
  rewrite IH; [done|]. intros e' He'. rewrite Hn.
  apply Hes, elem_of_cons. auto.
Qed.


(** With more paths there are no more components: the loop of a graph
    whose paths include those of another emits a component no more often. *)
Lemma cc_loop_length_le G1 G2 vs : ∀ seen1 seen2,
  (∀ v w, Nx.connected G1 v w → Nx.connected G2 v w) →
  (∀ v w, v ∈ seen2 → Nx.connected G2 v w → w ∈ seen2) →
  (∀ v, v ∈ seen1 → v ∈ seen2) →
  length (Nx.cc_loop G2 vs seen2) ≤ length (Nx.cc_loop G1 vs seen1).
Proof.
  induction vs as [|v vs IH]; intros seen1 seen2 Hsub Hcl Hseen; [done|].
  cbn [Nx.cc_loop].
  assert (Hcl' : ∀ x w, x ∈ seen2 ++ Nx.plain_bfs G2 v →
                        Nx.connected G2 x w → w ∈ seen2 ++ Nx.plain_bfs G2 v).
  { intros x w Hx Hxw. apply elem_of_app in Hx as [Hx|Hx]; apply elem_of_app.
    - left. eauto.
    - right. apply plain_bfs_spec. apply plain_bfs_spec in Hx.
      by eapply connected_trans. }
  destruct (decide (v ∈ seen1)) as [H1|H1].
  - rewrite decide_True by auto. by apply IH.
  - destruct (decide (v ∈ seen2)) as [H2|H2].
    + cbn [length]. etrans; [apply (IH (seen1 ++ Nx.plain_bfs G1 v) seen2)|lia];
        [done..|].
      intros x Hx. apply elem_of_app in Hx as [?|Hx]; [auto|].
      apply plain_bfs_spec in Hx. eauto.
    + cbn [length]. apply le_n_S, IH; [done..|].
      intros x Hx. apply elem_of_app. apply elem_of_app in Hx as [?|Hx]; [auto|].
      right. apply plain_bfs_spec. apply plain_bfs_spec in Hx. auto.
Qed.
End more_graph_facts.



(** X5: the labels of a graph are the positions of its components, all of
    them: a number is below the count of the identity (family) components
    exactly when one of the two individual (family) label frames maps an
    identifier to it. *)
Theorem labels_are_the_component_positions
    (hmis : list hmis_row) (cp : list cp_row)
    (hd cd : list link_plus_row) (m : list match_row) (i : nat) :
  (i < length (Nx.connected_components (G_individuals hmis cp hd cd m))
   ↔ (∃ a, (a, i) ∈ hmis_individuals hmis cp hd cd m)
     ∨ (∃ b, (b, i) ∈ cp_individuals hmis cp hd cd m))
  ∧ (i < length (Nx.connected_components (G_families hmis cp hd cd m))
     ↔ (∃ a, (a, i) ∈ hmis_families hmis cp hd cd m)
       ∨ (∃ b, (b, i) ∈ cp_families hmis cp hd cd m)).
Proof.
  assert (Hgen : ∀ G : Nx.Graph Node, Nx.closed G →
    i < length (Nx.connected_components G)
    ↔ (∃ a, label_dict G h !! a = Some i) ∨ (∃ b, label_dict G c !! b = Some i)).
  { intros G Hcl. split.
    - intros Hi. apply lookup_lt_is_Some in Hi as [ci Hi].
      destruct (component_is_bfs G ci) as ([p a] & _ & Ha & _).
      { by eapply list_elem_of_lookup_2. }
      destruct p; [left|right]; exists a; by eapply label_dict_component.
    - intros [[a Ha]|[a Ha]]; apply label_dict_Some in Ha as (ci & Hi & _);
        try done; by eapply lookup_lt_Some. }
  unfold hmis_individuals, cp_individuals, hmis_families, cp_families,
    create_dataframe_from_grouped_ids, frame_of_dict.
  setoid_rewrite elem_of_map_to_list.
  split; apply Hgen; [apply closed_G_individuals|apply closed_G_families].
Qed.

(** X6: the family edges join raw identifiers of the record frames only:
    the family graph has the vertices of the identity graph, in the same
    order, and no more components than the identity graph; there are at
    most as many family labels as individual labels. *)
Theorem family_graph_same_vertices
    (hmis : list hmis_row) (cp : list cp_row)
    (hd cd : list link_plus_row) (m : list match_row) :
  Nx.nodes (G_families hmis cp hd cd m)
    = Nx.nodes (G_individuals hmis cp hd cd m)
  ∧ length (Nx.connected_components (G_families hmis cp hd cd m))
    ≤ length (Nx.connected_components (G_individuals hmis cp hd cd m)).
Proof.
  assert (Hn : Nx.nodes (G_families hmis cp hd cd m)
               = Nx.nodes (G_individuals hmis cp hd cd m)).
  { unfold G_families, Nx.copy.
    rewrite !nodes_add_edges_from_present; [done| |].
    - intros [u v] He. simpl.
      apply elem_of_group_edges in He
        as (k & a & b & -> & -> & (r1 & Hr1 & _ & Ha) & (r2 & Hr2 & _ & Hb)).
      simplify_eq. split; by apply record_node_hmis.
    - intros [u v] He. simpl.
      apply elem_of_group_edges in He
        as (k & a & b & -> & -> & (r1 & Hr1 & _ & Ha) & (r2 & Hr2 & _ & Hb)).
      simplify_eq. rewrite nodes_add_edges_from_present.
      + split; by apply record_node_cp.
      + intros [u v] He. simpl.
        apply elem_of_group_edges in He
          as (k' & a & b & -> & -> & (r3 & Hr3 & _ & Ha) & (r4 & Hr4 & _ & Hb)).
        simplify_eq. split; by apply record_node_hmis. }
  split; [done|]. unfold Nx.connected_components. rewrite Hn.
  apply cc_loop_length_le.
  - apply connected_G_families.
  - intros v w Hv. by apply elem_of_nil in Hv.
  - done.
Qed.



(** * Every vertex once *)
Section nodup_facts.
Context {V : Type} `{EqDecision V}.
Implicit Types (G : Nx.Graph V) (v w : V).

Lemma NoDup_foldl_visit G level : ∀ seen next,
  NoDup seen → NoDup (fst (foldl (Nx.visit G) (seen, next) level)).
Proof.
  induction level as [|v level IH]; intros seen next Hnd; [done|].
  cbn [foldl]. unfold Nx.visit at 2. cbn [fst snd].
  case_decide as Hv; [by apply IH|]. apply IH.
  apply NoDup_app. repeat split; [done| |apply NoDup_singleton].
  intros x Hx Hxv. apply list_elem_of_singleton in Hxv as ->. done.
Qed.

Lemma NoDup_bfs_loop G fuel : ∀ seen level,
  NoDup seen → NoDup (Nx.bfs_loop G fuel seen level).
Proof.
  induction fuel as [|fuel IH]; intros seen level Hnd; [done|].
  destruct level as [|v level]; [done|]. cbn [Nx.bfs_loop].
  apply IH. unfold Nx.bfs_level. by apply NoDup_foldl_visit.
Qed.

Lemma NoDup_plain_bfs G v : NoDup (Nx.plain_bfs G v).
Proof. apply NoDup_bfs_loop. constructor. Qed.

Lemma NoDup_cc_loop G vs : ∀ seen,
  (∀ u w, u ∈ seen → Nx.connected G u w → w ∈ seen) →
  NoDup (mjoin (Nx.cc_loop G vs seen)).
Proof.
  induction vs as [|v vs IH]; intros seen Hcl; [constructor|].
  cbn [Nx.cc_loop]. case_decide as Hv; [by apply IH|].
  assert (Hcl' : ∀ u w, u ∈ seen ++ Nx.plain_bfs G v → Nx.connected G u w →
                        w ∈ seen ++ Nx.plain_bfs G v).
  { intros u w Hu Huw. apply elem_of_app in Hu as [Hu|Hu]; apply elem_of_app.
    - left. eauto.
    - right. apply plain_bfs_spec. apply plain_bfs_spec in Hu.
      by eapply connected_trans. }
  change (NoDup (Nx.plain_bfs G v
                 ++ mjoin (Nx.cc_loop G vs (seen ++ Nx.plain_bfs G v)))).
  apply NoDup_app. repeat split; [apply NoDup_plain_bfs| |by apply IH].
  intros x Hx Hj. apply list_elem_of_join in Hj as (c0 & Hxc & Hc).
  destruct (cc_loop_spec G vs (seen ++ Nx.plain_bfs G v) Hcl')
    as (_ & _ & D & _).
  apply (D c0 x Hc Hxc), elem_of_app. auto.
Qed.

(** The components, one after the other, list every vertex once. *)
Lemma components_Permutation G :
  Nx.closed G → NoDup (Nx.nodes G) →
  mjoin (Nx.connected_components G) ≡ₚ Nx.nodes G.
Proof.
  intros Hcl Hnd. apply NoDup_Permutation; [|done|].
  - apply NoDup_cc_loop. intros ? ? Hn. by apply elem_of_nil in Hn.
  - intros x. rewrite list_elem_of_join.
    destruct (components_partition G Hcl) as [P1 _]. rewrite P1.
    split; intros (c0 & ? & ?); eauto.
Qed.

Lemma NoDup_nodes_add_node G v :
  NoDup (Nx.nodes G) → NoDup (Nx.nodes (Nx.add_node G v)).
Proof.
  intros Hnd. unfold Nx.add_node. case_decide; [done|]. simpl.
  apply NoDup_app. repeat split; [done| |apply NoDup_singleton].
  intros x Hx Hxv. apply list_elem_of_singleton in Hxv as ->. done.
Qed.

Lemma NoDup_nodes_add_nodes_from ns : ∀ G,
  NoDup (Nx.nodes G) → NoDup (Nx.nodes (Nx.add_nodes_from G ns)).
Proof.
  unfold Nx.add_nodes_from.
  induction ns as [|n ns IH]; intros G Hnd; [done|].
  cbn [foldl]. by apply IH, NoDup_nodes_add_node.
Qed.

Lemma NoDup_nodes_add_edges_from es : ∀ G,
  NoDup (Nx.nodes G) → NoDup (Nx.nodes (Nx.add_edges_from G es)).
Proof.
  unfold Nx.add_edges_from.
  induction es as [|e es IH]; intros G Hnd; [done|].
  cbn [foldl]. apply IH. unfold Nx.add_edge. simpl.
  by do 2 apply NoDup_nodes_add_node.
Qed.

Lemma component_nonempty G c0 :
  c0 ∈ Nx.connected_components G → c0 ≠ [].
Proof.
  intros Hc ->. destruct (component_is_bfs G [] Hc) as (v & _ & Hv & _).
  by apply elem_of_nil in Hv.
Qed.
End nodup_facts.

Section projection_facts.
Implicit Types (p : prefix) (ns : list Node) (cs : list (list Node)).

Lemma get_ids_from_nodes_app p ns1 ns2 :
  get_ids_from_nodes p (ns1 ++ ns2)
  = get_ids_from_nodes p ns1 ++ get_ids_from_nodes p ns2.
Proof. unfold get_ids_from_nodes. by rewrite filter_app, fmap_app. Qed.

Lemma get_ids_from_nodes_join p cs :
  mjoin (get_ids_from_nodes p <$> cs) = get_ids_from_nodes p (mjoin cs).
Proof.
  induction cs as [|c0 cs IH]; [done|].
  rewrite fmap_cons. cbn [mjoin list_join].
  change (get_ids_from_nodes p c0 ++ mjoin (get_ids_from_nodes p <$> cs)
          = get_ids_from_nodes p (c0 ++ mjoin cs)).
  by rewrite IH, get_ids_from_nodes_app.
Qed.

Lemma NoDup_get_ids_from_nodes p ns :
  NoDup ns → NoDup (get_ids_from_nodes p ns).
Proof.
  intros Hnd. unfold get_ids_from_nodes.
  apply NoDup_fmap_2_strong; [|by apply NoDup_filter].
  intros [p1 a1] [p2 a2] H1 H2 Heq.
  apply list_elem_of_filter in H1 as [H1 _].
  apply list_elem_of_filter in H2 as [H2 _]. simpl in *. by subst.
Qed.

Lemma length_get_ids_from_nodes ns :
  length (get_ids_from_nodes h ns) + length (get_ids_from_nodes c ns)
  = length ns.
Proof.
  unfold get_ids_from_nodes. rewrite !length_fmap.
  induction ns as [|[p a] ns IH]; [done|]. rewrite !filter_cons.
  destruct p; repeat case_decide; try done; cbn [length].
  - rewrite Nat.add_succ_l. f_equal. exact IH.
  - rewrite Nat.add_succ_r. f_equal. exact IH.
Qed.

Lemma NoDup_nodes_G_individuals hmis cp hd cd m :
  NoDup (Nx.nodes (G_individuals hmis cp hd cd m)).
Proof.
  unfold G_individuals.
  do 3 apply NoDup_nodes_add_edges_from. do 2 apply NoDup_nodes_add_nodes_from.
  constructor.
Qed.

Lemma NoDup_nodes_G_families hmis cp hd cd m :
  NoDup (Nx.nodes (G_families hmis cp hd cd m)).
Proof.
  unfold G_families, Nx.copy. do 2 apply NoDup_nodes_add_edges_from.
  apply NoDup_nodes_G_individuals.
Qed.
End projection_facts.

(** X8: the components of the identity graph and of the family graph,
    taken one after the other, list every vertex of the graph once; no
    component is empty, so there are at most as many components, and
    labels, as vertices. *)
Theorem components_list_every_vertex_once
    (hmis : list hmis_row) (cp : list cp_row)
    (hd cd : list link_plus_row) (m : list match_row) :
  (mjoin (Nx.connected_components (G_individuals hmis cp hd cd m))
     ≡ₚ Nx.nodes (G_individuals hmis cp hd cd m)
   ∧ Forall (λ c0, c0 ≠ [])
       (Nx.connected_components (G_individuals hmis cp hd cd m))
   ∧ length (Nx.connected_components (G_individuals hmis cp hd cd m))
     ≤ length (Nx.nodes (G_individuals hmis cp hd cd m)))
  ∧ (mjoin (Nx.connected_components (G_families hmis cp hd cd m))
       ≡ₚ Nx.nodes (G_families hmis cp hd cd m)
     ∧ Forall (λ c0, c0 ≠ [])
         (Nx.connected_components (G_families hmis cp hd cd m))
     ∧ length (Nx.connected_components (G_families hmis cp hd cd m))
       ≤ length (Nx.nodes (G_families hmis cp hd cd m))).
Proof.
  assert (Hgen : ∀ G : Nx.Graph Node, Nx.closed G → NoDup (Nx.nodes G) →
    mjoin (Nx.connected_components G) ≡ₚ Nx.nodes G
    ∧ Forall (λ c0, c0 ≠ []) (Nx.connected_components G)
    ∧ length (Nx.connected_components G) ≤ length (Nx.nodes G)).
  { intros G Hcl Hnd. pose proof (components_Permutation G Hcl Hnd) as Hp.
    assert (Hne : Forall (λ c0, c0 ≠ []) (Nx.connected_components G)).
    { apply Forall_forall. intros c0. apply component_nonempty. }
    repeat split; [done..|]. rewrite <- Hp. clear Hp.
    induction Hne as [|c0 cs Hc _ IH]; [done|].
    change (mjoin (c0 :: cs)) with (c0 ++ mjoin cs). rewrite length_app.
    destruct c0; [done|]. cbn [length]. lia. }
  split; apply Hgen;
    [apply closed_G_individuals|apply NoDup_nodes_G_individuals
    |apply closed_G_families|apply NoDup_nodes_G_families].
Qed.

(** X9: the groups handed to [create_dataframe_from_grouped_ids] hold no
    identifier twice, within a group or across groups, for either prefix
    and either graph, so no store of the dict comprehension replaces an
    earlier one; and the HMIS groups and the Connecting Point groups of the
    identity graph hold together as many identifiers as the graph has
    vertices. *)
Theorem groups_hold_every_identifier_once
    (hmis : list hmis_row) (cp : list cp_row)
    (hd cd : list link_plus_row) (m : list match_row) (p : prefix) :
  NoDup (mjoin (get_ids_from_nodes p
                  <$> Nx.connected_components (G_individuals hmis cp hd cd m)))
  ∧ NoDup (mjoin (get_ids_from_nodes p
                    <$> Nx.connected_components (G_families hmis cp hd cd m)))
  ∧ length (mjoin (get_ids_from_nodes h
                     <$> Nx.connected_components
                           (G_individuals hmis cp hd cd m)))
    + length (mjoin (get_ids_from_nodes c
                       <$> Nx.connected_components
                             (G_individuals hmis cp hd cd m)))
    = length (Nx.nodes (G_individuals hmis cp hd cd m)).
Proof.
  pose proof (components_Permutation _ (closed_G_individuals hmis cp hd cd m)
                (NoDup_nodes_G_individuals hmis cp hd cd m)) as Hi.
  pose proof (components_Permutation _ (closed_G_families hmis cp hd cd m)
                (NoDup_nodes_G_families hmis cp hd cd m)) as Hf.
  rewrite !get_ids_from_nodes_join. repeat split.
  - apply NoDup_get_ids_from_nodes. rewrite Hi.
    apply NoDup_nodes_G_individuals.
  - apply NoDup_get_ids_from_nodes. rewrite Hf. apply NoDup_nodes_G_families.
  - by rewrite length_get_ids_from_nodes, Hi.
Qed.

(** * Further facts on the edge lists *)
Section more_edge_facts.

Lemma drop_duplicates_app {A} `{EqDecision A} (l1 l2 : list A) :
  drop_duplicates (l1 ++ l2)
  = drop_duplicates l1 ++ filter (λ y, y ∉ l1) (drop_duplicates l2).
Proof.
  induction l1 as [|a l1 IH].
  - cbn [app drop_duplicates]. symmetry.
    induction (drop_duplicates l2) as [|x l IHl]; [done|].
    rewrite filter_cons_True by apply not_elem_of_nil. by rewrite IHl.
  - cbn [app drop_duplicates]. rewrite IH, filter_app, list_filter_filter.
    f_equal. f_equal. apply list_filter_iff. intros x.
    rewrite elem_of_cons. tauto.
Qed.

Lemma drop_duplicates_repeated {A} `{EqDecision A} (l1 l2 : list A) x :
  x ∈ l1 → drop_duplicates (l1 ++ x :: l2) = drop_duplicates (l1 ++ l2).
Proof.
  intros Hx. rewrite !drop_duplicates_app. f_equal. cbn [drop_duplicates].
  rewrite filter_cons_False by tauto. rewrite list_filter_filter.
  apply list_filter_iff. intros y. split; [tauto|].
  intros Hy. split; [done|]. by intros ->.
Qed.

Lemma group_edges_of_kept_rows {R} p (df df' : list R) group_ids individual_id :
  kept_rows df group_ids individual_id = kept_rows df' group_ids individual_id →
  group_edges p df group_ids individual_id
  = group_edges p df' group_ids individual_id.
Proof.
  intros Heq. rewrite !group_edges_pairs_sharing_key.
  unfold pairs_sharing_key. by rewrite Heq.
Qed.
End more_edge_facts.

(** X10: the edge list of [group_edges] is symmetric and joins every
    identifier it mentions to itself; all its vertices carry the prefix
    given. *)
Theorem group_edges_symmetric {R} (p : prefix) (df : list R)
    (group_ids : R → list cell) (individual_id : R → option Z) u v :
  (u, v) ∈ group_edges p df group_ids individual_id →
  (v, u) ∈ group_edges p df group_ids individual_id
  ∧ (u, u) ∈ group_edges p df group_ids individual_id
  ∧ (v, v) ∈ group_edges p df group_ids individual_id
  ∧ u.1 = p ∧ v.1 = p.
Proof.
  rewrite !elem_of_group_edges.
  intros (k & a & b & -> & -> & Ha & Hb).
  repeat split; [exists k, b, a|exists k, a, a|exists k, b, b]; by repeat split.
Qed.

Lemma group_edges_symmetric_witness :
  ((h, 101%Z), (h, 100%Z))
    ∈ group_edges h Scenario.hmis_duplicates (λ r, [Set_ID r]) Linked
  ∧ ((h, 100%Z), (h, 100%Z))
      ∈ group_edges h Scenario.hmis_duplicates (λ r, [Set_ID r]) Linked
  ∧ ((h, 101%Z), (h, 101%Z))
      ∈ group_edges h Scenario.hmis_duplicates (λ r, [Set_ID r]) Linked
  ∧ (h, 100%Z).1 = h ∧ (h, 101%Z).1 = h.
Proof.
  apply (group_edges_symmetric h Scenario.hmis_duplicates (λ r, [Set_ID r])
           Linked (h, 100%Z) (h, 101%Z)).
  apply (list_elem_of_lookup_2 _ 1). vm_compute. reflexivity.
Defined.

(** X11: [group_edges] returns the same list when a row that misses a
    grouping cell or its identifier is taken out of the frame, and when a
    row is taken out that repeats, in the columns selected, a row before
    it: such rows add no edge and move none. *)
Theorem group_edges_ignores_rows {R} (p : prefix) (df1 df2 : list R) (r : R)
    (group_ids : R → list cell) (individual_id : R → option Z) :
  complete (group_ids r) = None ∨ individual_id r = None
  ∨ (∃ r', r' ∈ df1 ∧ group_ids r' = group_ids r
           ∧ individual_id r' = individual_id r) →
  group_edges p (df1 ++ r :: df2) group_ids individual_id
  = group_edges p (df1 ++ df2) group_ids individual_id.
Proof.
  intros Hr. apply group_edges_of_kept_rows. unfold kept_rows.
  rewrite !omap_app.
  match goal with
  | |- context [omap ?f (r :: df2)] =>
      change (omap f (r :: df2))
        with (match f r with
              | Some y => y :: omap f df2
              | None => omap f df2
              end);
      destruct (f r) as [ka|] eqn:Hf; [|done]
  end.
  destruct Hr as [Hk|[Ha|(r' & Hr' & Hg & Hi)]].
  - by rewrite Hk in Hf.
  - rewrite Ha in Hf. by destruct (complete (group_ids r)).
  - apply drop_duplicates_repeated. apply list_elem_of_omap.
    exists r'. split; [done|]. by rewrite Hg, Hi.
Qed.

Lemma group_edges_ignores_rows_witness :
  group_edges h
    ([mk_link (Some (Int 1)) (Some 100%Z)]
       ++ mk_link None (Some 101%Z) :: [mk_link (Some (Int 1)) (Some 102%Z)])
    (λ r, [Set_ID r]) Linked
  = group_edges h
      ([mk_link (Some (Int 1)) (Some 100%Z)]
         ++ [mk_link (Some (Int 1)) (Some 102%Z)])
      (λ r, [Set_ID r]) Linked.
Proof.
  apply (group_edges_ignores_rows h [mk_link (Some (Int 1)) (Some 100%Z)]
           [mk_link (Some (Int 1)) (Some 102%Z)] (mk_link None (Some 101%Z))).
  left. reflexivity.
Defined.

(** X12: every edge of [matching_edges] goes from a Connecting Point vertex
    to an HMIS vertex; the edges follow the order of the file, at most one
    per row, and one per row when no row has a cell missing. *)
Theorem matching_edges_shape (m1 m2 : list match_row) :
  (∀ e, e ∈ matching_edges m1 → e.1.1 = c ∧ e.2.1 = h)
  ∧ matching_edges (m1 ++ m2) = matching_edges m1 ++ matching_edges m2
  ∧ length (matching_edges m1) ≤ length m1
  ∧ (Forall (λ r, is_Some (clientid r)
                  ∧ is_Some (Subject_Unique_Identifier r)
                  ∧ is_Some (complete (other_columns r))) m1 →
     length (matching_edges m1) = length m1).
Proof.
  split; [|split; [|split]].
  - intros [u v] He. apply elem_of_matching_edges in He
      as (r & x & y & _ & _ & _ & _ & -> & ->). done.
  - unfold matching_edges. by rewrite omap_app, fmap_app.
  - unfold matching_edges. rewrite length_fmap.
    induction m1 as [|r m1 IH]; [done|]. cbn [omap list_omap].
    destruct (matching_dropna r); cbn [length]; lia.
  - intros Hall. unfold matching_edges. rewrite length_fmap.
    induction Hall as [|r m1 (Hx & Hy & Hk) _ IH]; [done|].
    cbn [omap list_omap]. unfold matching_dropna at 1.
    destruct Hx as [x ->], Hy as [y ->], Hk as [k ->]. cbn [length].
    by rewrite IH.
Qed.

Lemma matching_edges_shape_witness :
  length (matching_edges Scenario.matching) = length Scenario.matching.
Proof.
  apply (proj2 (proj2 (proj2 (matching_edges_shape Scenario.matching [])))).
  repeat constructor; by eexists.
Defined.


(** * The frames as read *)
Section raw_facts.

Lemma elem_of_merge_inner {L R K} `{EqDecision K}
    (lkey : L → K) (rkey : R → K) (left : list L) (right : list R) l r :
  (l, r) ∈ merge_inner lkey rkey left right
  ↔ l ∈ left ∧ r ∈ right ∧ lkey l = rkey r.
Proof.
  unfold merge_inner. rewrite list_elem_of_bind. split.
  - intros (l' & Hx & Hl). apply list_elem_of_bind in Hx as (r' & Hx & Hr).
    case_decide; [|by apply elem_of_nil in Hx].
    apply list_elem_of_singleton in Hx. by simplify_eq.
  - intros (Hl & Hr & Hk). exists l. split; [|done].
    apply list_elem_of_bind. exists r. split; [|done].
    rewrite decide_True by done. by apply list_elem_of_singleton.
Qed.

Lemma merge_inner_unique_right {L R K} `{EqDecision K}
    (lkey : L → K) (rkey : R → K) (left : list L) (right : list R) :
  NoDup (rkey <$> right) →
  (merge_inner lkey rkey left right).*1
  = filter (λ l, lkey l ∈ rkey <$> right) left.
Proof.
  intros Hnd. unfold merge_inner.
  assert (Hrow : ∀ l : L,
    (right ≫= λ r, if decide (lkey l = rkey r) then [(l, r)] else []).*1
    = if decide (lkey l ∈ rkey <$> right) then [l] else []).
  { intros l. induction right as [|r right IH].
    - rewrite decide_False; [done|]. apply not_elem_of_nil.
    - rewrite fmap_cons in Hnd. apply NoDup_cons in Hnd as [Hr Hnd].
      rewrite bind_cons, fmap_app, (IH Hnd). rewrite fmap_cons.
      destruct (decide (lkey l = rkey r)) as [Heq|Hne].
      + rewrite decide_False by by rewrite Heq.
        rewrite decide_True by (apply elem_of_cons; auto). done.
      + destruct (decide (lkey l ∈ rkey <$> right)) as [Hin|Hout].
        * rewrite decide_True by (apply elem_of_cons; auto). done.
        * rewrite decide_False; [done|]. rewrite elem_of_cons. tauto. }
  induction left as [|l left IH]; [done|].
  rewrite bind_cons, fmap_app, IH, Hrow, filter_cons. by case_decide.
Qed.

Lemma elem_of_merge_left_Some {R K B} `{EqDecision K}
    (key : R → K) (left : list R) (right : list (K * B)) r b :
  (r, Some b) ∈ merge_left key left right ↔ r ∈ left ∧ (key r, b) ∈ right.
Proof.
  unfold merge_left. rewrite list_elem_of_bind. split.
  - intros (r' & Hx & Hr).
    destruct (filter (λ kb, kb.1 = key r') right) as [|kb ms] eqn:Hf.
    + apply list_elem_of_singleton in Hx. by simplify_eq.
    + apply list_elem_of_fmap in Hx as ([k b'] & Heq & Hin). simplify_eq.
      rewrite <- Hf in Hin. apply list_elem_of_filter in Hin as [Hk Hin].
      simpl in Hk. by subst.
  - intros [Hr Hb]. exists r. split; [|done].
    assert (Hin : (key r, b) ∈ filter (λ kb, kb.1 = key r) right)
      by by apply list_elem_of_filter.
    destruct (filter (λ kb, kb.1 = key r) right) as [|kb ms];
      [by apply elem_of_nil in Hin|].
    apply list_elem_of_fmap. by exists (key r, b).
Qed.

Lemma elem_of_merge_left_None {R K B} `{EqDecision K}
    (key : R → K) (left : list R) (right : list (K * B)) r :
  (r, None) ∈ merge_left key left right
  ↔ r ∈ left ∧ ∀ b, (key r, b) ∉ right.
Proof.
  unfold merge_left. rewrite list_elem_of_bind. split.
  - intros (r' & Hx & Hr).
    destruct (filter (λ kb, kb.1 = key r') right) as [|kb ms] eqn:Hf.
    + apply list_elem_of_singleton in Hx. simplify_eq. split; [done|].
      intros b Hb. eapply (filter_nil_not_elem_of _ _ _ Hf); [|exact Hb].
      done.
    + apply list_elem_of_fmap in Hx as (? & ? & _). done.
  - intros [Hr Hno]. exists r. split; [|done].
    destruct (filter (λ kb, kb.1 = key r) right) as [|[k b] ms] eqn:Hf;
      [by apply list_elem_of_singleton|].
    assert (Hin : (k, b) ∈ filter (λ kb, kb.1 = key r) right)
      by (rewrite Hf; apply elem_of_cons; auto).
    apply list_elem_of_filter in Hin as [Hk Hin]. simpl in Hk. subst.
    by destruct (Hno b).
Qed.

Lemma length_merge_left {R K B} `{EqDecision K}
    (key : R → K) (left : list R) (right : list (K * B)) :
  length left ≤ length (merge_left key left right).
Proof.
  unfold merge_left. induction left as [|r left IH]; [done|].
  rewrite bind_cons, length_app.
  destruct (filter (λ kb, kb.1 = key r) right) as [|kb ms].
  - cbn [length]. lia.
  - rewrite length_fmap. cbn [length]. lia.
Qed.
End raw_facts.

(** X14: [get_raw_hmis] pairs a program row with a client row exactly when
    they have the same identifier, so a program row with no client row is
    left out; when the client file has one row per identifier, the program
    rows kept are those whose identifier is in the client file, once each
    and in their order. *)
Theorem get_raw_hmis_inner_join
    (program : list program_row) (client : list hmis_client_row) :
  (∀ p cl, (p, cl) ∈ get_raw_hmis program client
           ↔ p ∈ program ∧ cl ∈ client
             ∧ Program_Subject_Unique_Identifier p
               = Client_Subject_Unique_Identifier cl)
  ∧ (NoDup (Client_Subject_Unique_Identifier <$> client) →
     (get_raw_hmis program client).*1
     = filter (λ p, Program_Subject_Unique_Identifier p
                    ∈ Client_Subject_Unique_Identifier <$> client) program).
Proof.
  split.
  - intros p cl. apply elem_of_merge_inner.
  - apply merge_inner_unique_right.
Qed.

Lemma get_raw_hmis_inner_join_witness :
  (get_raw_hmis
     [mk_program (Some 100%Z) None None; mk_program (Some 5%Z) None None;
      mk_program (Some 100%Z) (Some (Str "X")) None]
     [mk_hmis_client (Some 100%Z) None; mk_hmis_client (Some 7%Z) None]).*1
  = filter (λ p, Program_Subject_Unique_Identifier p
                 ∈ Client_Subject_Unique_Identifier
                     <$> [mk_hmis_client (Some 100%Z) None;
                          mk_hmis_client (Some 7%Z) None])
      [mk_program (Some 100%Z) None None; mk_program (Some 5%Z) None None;
       mk_program (Some 100%Z) (Some (Str "X")) None].
Proof.
  apply (proj2 (get_raw_hmis_inner_join _ _)).
  apply (bool_decide_unpack _). vm_compute. exact I.
Defined.

(** X15: [get_raw_cp] keeps every case row: a case row is paired with each
    client row of its case identifier, and with a null client when there
    is none; a client row of no case is left out, and the frame returned
    has at least the rows of the case file. *)
Theorem get_raw_cp_left_join
    (case : list case_row) (client : list cp_client_row) :
  (∀ c0 cl, (c0, Some cl) ∈ get_raw_cp case client
            ↔ c0 ∈ case ∧ cl ∈ client ∧ Client_Caseid cl = Case_Caseid c0)
  ∧ (∀ c0, (c0, None) ∈ get_raw_cp case client
           ↔ c0 ∈ case
             ∧ ∀ cl, cl ∈ client → Client_Caseid cl ≠ Case_Caseid c0)
  ∧ length case ≤ length (get_raw_cp case client).
Proof.
  unfold get_raw_cp. split; [|split].
  - intros c0 cl. rewrite elem_of_merge_left_Some, list_elem_of_fmap. split.
    + intros (Hc & cl' & Heq & Hcl). by simplify_eq.
    + intros (Hc & Hcl & Hk). split; [done|]. exists cl. by rewrite Hk.
  - intros c0. rewrite elem_of_merge_left_None. split.
    + intros [Hc Hno]. split; [done|]. intros cl Hcl Hk.
      apply (Hno cl). apply list_elem_of_fmap. exists cl. by rewrite Hk.
    + intros [Hc Hno]. split; [done|].
      intros cl Hcl. apply list_elem_of_fmap in Hcl as (cl' & Heq & Hcl).
      simplify_eq. by apply (Hno cl').
  - apply length_merge_left.
Qed.

(** * Further facts on the family flags *)
Section more_flag_facts.
Context {R : Type}.
Implicit Types (df : list R) (child adult f : R → bool)
               (family_id : R → option nat) (group_ids : R → list cell).

Lemma transform_any_column df {K} `{EqDecision K} (key : R → option K) f i r k :
  df !! i = Some r → key r = Some k →
  ∃ b, transform_any (groupby key df) (f <$> df) !! i = Some b
       ∧ (b = true ↔ ∃ j r', df !! j = Some r' ∧ key r' = Some k
                             ∧ f r' = true).
Proof.
  intros Hi Hk.
  destruct (transform_any_groupby df key (f <$> df) i r k)
    as (b & Hb & Hiff); [by rewrite length_fmap|done..|].
  exists b. split; [done|]. rewrite Hiff.
  split; intros (j & r' & Hj & Hk' & Hf); exists j, r';
    rewrite list_lookup_fmap, Hj in *; simpl in *;
    repeat split; try done; congruence.
Qed.

Lemma length_generate_family_characteristics df child adult family_id group_ids :
  length (With_Child (generate_family_characteristics df child adult
                        family_id group_ids)) = length df
  ∧ length (With_Adult (generate_family_characteristics df child adult
                          family_id group_ids)) = length df
  ∧ length (With_Family (generate_family_characteristics df child adult
                           family_id group_ids)) = length df
  ∧ length (Family (generate_family_characteristics df child adult
                      family_id group_ids)) = length df.
Proof.
  simpl.
  rewrite !length_transform_any, length_zip_with, !length_transform_any,
    !length_fmap.
  repeat split; lia.
Qed.

Lemma family_column df child adult family_id group_ids i r label :
  df !! i = Some r → family_id r = Some label →
  ∃ b, Family (generate_family_characteristics df child adult
                 family_id group_ids) !! i = Some b
       ∧ (b = true ↔ ∃ j r', df !! j = Some r' ∧ family_id r' = Some label
                             ∧ With_Family (generate_family_characteristics df
                                              child adult family_id group_ids)
                                 !! j = Some true).
Proof.
  intros Hi Hl.
  apply (transform_any_groupby df family_id _ i r label); [|done..].
  apply (length_generate_family_characteristics df child adult family_id
           group_ids).
Qed.

Lemma same_truth (b1 b2 : bool) (P : Prop) :
  (b1 = true ↔ P) → (b2 = true ↔ P) → b1 = b2.
Proof. destruct b1, b2; intuition congruence. Qed.
End more_flag_facts.

(** X16: the flags do not vary inside a group: rows with the same grouping
    key, all cells present, have the same ['With Child?'], ['With Adult?']
    and ['With Family?']; rows with the same family label have the same
    ['Family?']; and a row with a family label whose ['With Family?'] is
    true has ['Family?'] true. *)
Theorem family_flags_constant_on_groups {R} (df : list R)
    (child adult : R → bool)
    (family_id : R → option nat) (group_ids : R → list cell) :
  (∀ i j ri rj k,
     df !! i = Some ri → df !! j = Some rj →
     complete (group_ids ri) = Some k → complete (group_ids rj) = Some k →
     With_Child (generate_family_characteristics df child adult
                   family_id group_ids) !! i
     = With_Child (generate_family_characteristics df child adult
                     family_id group_ids) !! j
     ∧ With_Adult (generate_family_characteristics df child adult
                     family_id group_ids) !! i
       = With_Adult (generate_family_characteristics df child adult
                       family_id group_ids) !! j
     ∧ With_Family (generate_family_characteristics df child adult
                      family_id group_ids) !! i
       = With_Family (generate_family_characteristics df child adult
                        family_id group_ids) !! j)
  ∧ (∀ i j ri rj label,
       df !! i = Some ri → df !! j = Some rj →
       family_id ri = Some label → family_id rj = Some label →
       Family (generate_family_characteristics df child adult
                 family_id group_ids) !! i
       = Family (generate_family_characteristics df child adult
                   family_id group_ids) !! j)
  ∧ (∀ i ri label,
       df !! i = Some ri → family_id ri = Some label →
       With_Family (generate_family_characteristics df child adult
                      family_id group_ids) !! i = Some true →
       Family (generate_family_characteristics df child adult
                 family_id group_ids) !! i = Some true).
Proof.
  split; [|split].
  - intros i j ri rj k Hi Hj Hki Hkj.
    assert (Hsame : ∀ f,
      transform_any (groupby (λ r, complete (group_ids r)) df) (f <$> df) !! i
      = transform_any (groupby (λ r, complete (group_ids r)) df) (f <$> df)
          !! j).
    { intros f.
      destruct (transform_any_column df (λ r, complete (group_ids r)) f
                  i ri k Hi Hki) as (b1 & -> & H1).
      destruct (transform_any_column df (λ r, complete (group_ids r)) f
                  j rj k Hj Hkj) as (b2 & -> & H2).
      f_equal. by eapply same_truth. }
    cbn [With_Child With_Adult With_Family generate_family_characteristics].
    rewrite !lookup_zip_with, !Hsame. done.
  - intros i j ri rj label Hi Hj Hli Hlj.
    destruct (family_column df child adult family_id group_ids i ri label
                Hi Hli) as (b1 & -> & H1).
    destruct (family_column df child adult family_id group_ids j rj label
                Hj Hlj) as (b2 & -> & H2).
    f_equal. by eapply same_truth.
  - intros i ri label Hi Hl Hw.
    destruct (family_column df child adult family_id group_ids i ri label
                Hi Hl) as (b & -> & Hb).
    f_equal. apply Hb. eauto.
Qed.

Lemma family_flags_constant_on_groups_witness :
  Family (hmis_generate_family_characteristics
            (hmis_child_status Scenario.years (Scenario.labelled).1)) !! 1
  = Family (hmis_generate_family_characteristics
              (hmis_child_status Scenario.years (Scenario.labelled).1)) !! 3.
Proof.
  apply (proj1 (proj2
           (family_flags_constant_on_groups
              (hmis_child_status Scenario.years (Scenario.labelled).1)
              Child Adult (λ r, (row r).2)
              (λ r, hmis_family_key (row r).1.1)))
         1 3
         (mk_status (mk_hmis 101 None None None, Some 0, Some 0)
            None false true)
         (mk_status (mk_hmis 7 (Some (Str "X")) (Some (Timestamp 20200101))
                       (Some (Timestamp 19800101)), Some 2, Some 0)
            (Some 40%Z) false true)
         0);
    vm_compute; reflexivity.
Defined.

(** X17: ['Family?'] is not true without a child and an adult: when the
    rows under a family label all have their grouping cells, and
    ['Family?'] is true on a row of the label, some row of the label
    belongs to a group that has a row with ['Child?'] and a row with
    ['Adult?']. *)
Theorem family_flag_needs_child_and_adult {R} (df : list R)
    (child adult : R → bool)
    (family_id : R → option nat) (group_ids : R → list cell) i r label :
  df !! i = Some r → family_id r = Some label →
  (∀ j rj, df !! j = Some rj → family_id rj = Some label →
           is_Some (complete (group_ids rj))) →
  Family (generate_family_characteristics df child adult
            family_id group_ids) !! i = Some true →
  ∃ j rj k jc rc ja ra,
    df !! j = Some rj ∧ family_id rj = Some label
    ∧ complete (group_ids rj) = Some k
    ∧ df !! jc = Some rc ∧ complete (group_ids rc) = Some k
    ∧ child rc = true
    ∧ df !! ja = Some ra ∧ complete (group_ids ra) = Some k
    ∧ adult ra = true.
Proof.
  intros Hi Hl Hkeys Hfam.
  destruct (family_column df child adult family_id group_ids i r label Hi Hl)
    as (b & Hb & Hiff).
  rewrite Hb in Hfam. simplify_eq.
  destruct (proj1 Hiff eq_refl) as (j & rj & Hj & Hlj & Hw).
  destruct (Hkeys j rj Hj Hlj) as [k Hk].
  cbn [With_Family generate_family_characteristics] in Hw.
  rewrite lookup_zip_with in Hw.
  destruct (transform_any_column df (λ r, complete (group_ids r)) child
              j rj k Hj Hk) as (b1 & Hb1 & H1).
  destruct (transform_any_column df (λ r, complete (group_ids r)) adult
              j rj k Hj Hk) as (b2 & Hb2 & H2).
  rewrite Hb1, Hb2 in Hw. simpl in Hw.
  assert (Hboth : b1 && b2 = true) by congruence.
  apply andb_true_iff in Hboth as [-> ->].
  destruct (proj1 H1 eq_refl) as (jc & rc & Hjc & Hkc & Hc).
  destruct (proj1 H2 eq_refl) as (ja & ra & Hja & Hka & Ha).
  exists j, rj, k, jc, rc, ja, ra. by repeat split.
Qed.

Lemma family_flag_needs_child_and_adult_witness :
  ∃ j rj k jc rc ja ra,
    [(1%Z, true, 0); (1%Z, false, 0)] !! j = Some rj
    ∧ (λ r : Z * bool * nat, Some r.2) rj = Some 0
    ∧ complete ((λ r : Z * bool * nat, [Some (Int r.1.1)]) rj) = Some k
    ∧ [(1%Z, true, 0); (1%Z, false, 0)] !! jc = Some rc
    ∧ complete ((λ r : Z * bool * nat, [Some (Int r.1.1)]) rc) = Some k
    ∧ (λ r : Z * bool * nat, r.1.2) rc = true
    ∧ [(1%Z, true, 0); (1%Z, false, 0)] !! ja = Some ra
    ∧ complete ((λ r : Z * bool * nat, [Some (Int r.1.1)]) ra) = Some k
    ∧ (λ r : Z * bool * nat, negb r.1.2) ra = true.
Proof.
  apply (family_flag_needs_child_and_adult
           [(1%Z, true, 0); (1%Z, false, 0)]
           (λ r, r.1.2) (λ r, negb r.1.2) (λ r, Some r.2)
           (λ r, [Some (Int r.1.1)]) 0 (1%Z, true, 0) 0).
  - reflexivity.
  - reflexivity.
  - intros j rj _ _. by eexists.
  - vm_compute. reflexivity.
Defined.

(** * The whole run *)
Section pipeline_facts.
Context {R : Type}.
Implicit Types (F : list (with_status R)).

Lemma status_row_child (r : with_status R) :
  status_row r →
  Child r = true ↔ ∃ a, Age_Entered r = Some a ∧ (a < 18)%Z.
Proof.
  intros [-> _]. unfold lt_scalar, ADULT_AGE.
  destruct (Age_Entered r) as [a|].
  - rewrite bool_decide_eq_true. split; [eauto|]. by intros (? & [= <-] & ?).
  - split; [done|]. by intros (? & ? & _).
Qed.

Lemma status_row_adult (r : with_status R) :
  status_row r →
  Adult r = true
  ↔ Age_Entered r = None ∨ ∃ a, Age_Entered r = Some a ∧ (18 ≤ a)%Z.
Proof.
  intros [Hc ->]. rewrite Hc. unfold lt_scalar, ADULT_AGE.
  destruct (Age_Entered r) as [a|]; [|by split; auto].
  rewrite negb_true_iff, bool_decide_eq_false. split.
  - intros Hge. right. exists a. split; [done|lia].
  - intros [?|(? & [= <-] & ?)]; [done|lia].
Qed.

Lemma with_family_by_age F (family_id : with_status R → option nat)
    (group_ids : with_status R → list cell) i r k :
  Forall status_row F →
  F !! i = Some r → complete (group_ids r) = Some k →
  With_Family (generate_family_characteristics F Child Adult
                 family_id group_ids) !! i = Some true
  ↔ (∃ j rj a, F !! j = Some rj ∧ complete (group_ids rj) = Some k
               ∧ Age_Entered rj = Some a ∧ (a < 18)%Z)
    ∧ (∃ j rj, F !! j = Some rj ∧ complete (group_ids rj) = Some k
               ∧ (Age_Entered rj = None
                  ∨ ∃ a, Age_Entered rj = Some a ∧ (18 ≤ a)%Z)).
Proof.
  intros Hall Hi Hk. rewrite Forall_lookup in Hall.
  cbn [With_Family generate_family_characteristics].
  rewrite lookup_zip_with.
  destruct (transform_any_column F (λ r, complete (group_ids r)) Child
              i r k Hi Hk) as (b1 & -> & H1).
  destruct (transform_any_column F (λ r, complete (group_ids r)) Adult
              i r k Hi Hk) as (b2 & -> & H2).
  simpl. split.
  - intros Hb. assert (Hboth : b1 && b2 = true) by congruence.
    apply andb_true_iff in Hboth as [-> ->].
    destruct (proj1 H1 eq_refl) as (jc & rc & Hjc & Hkc & Hc).
    destruct (proj1 H2 eq_refl) as (ja & ra & Hja & Hka & Ha).
    apply status_row_child in Hc as (a & Hage & Hlt); [|by eapply Hall].
    apply status_row_adult in Ha; [|by eapply Hall].
    split; [exists jc, rc, a|exists ja, ra]; by repeat split.
  - intros [(jc & rc & a & Hjc & Hkc & Hage & Hlt) (ja & ra & Hja & Hka & Ha)].
    rewrite (proj2 H1), (proj2 H2); [done|..].
    + exists ja, ra. repeat split; [done..|].
      apply status_row_adult; [by eapply Hall|done].
    + exists jc, rc. repeat split; [done..|].
      apply status_row_child; [by eapply Hall|eauto].
Qed.
End pipeline_facts.

Lemma status_row_hmis (relativedelta_years : scalar → scalar → Z)
    (hmis : list hmis_labelled) :
  Forall status_row (hmis_child_status relativedelta_years hmis).
Proof. unfold hmis_child_status. apply Forall_fmap, Forall_forall. by split. Qed.

Lemma status_row_cp (cp : list cp_labelled) :
  Forall status_row (cp_child_status cp).
Proof. unfold cp_child_status. apply Forall_fmap, Forall_forall. by split. Qed.

(** X18: child status and family flags together: on an HMIS row with its
    family site and program start date, ['With Family?'] is true exactly
    when its group has a row of known age under 18 and a row of age 18 or
    more or of unknown age; the same on a Connecting Point row with its
    case identifier.  A row of unknown age counts as an adult. *)
Theorem with_family_by_age_entered
    (relativedelta_years : scalar → scalar → Z)
    (hmis : list hmis_labelled) (cp : list cp_labelled) :
  (∀ i r k,
     hmis_child_status relativedelta_years hmis !! i = Some r →
     complete (hmis_family_key (row r).1.1) = Some k →
     With_Family (hmis_generate_family_characteristics
                    (hmis_child_status relativedelta_years hmis)) !! i
       = Some true
     ↔ (∃ j rj a,
          hmis_child_status relativedelta_years hmis !! j = Some rj
          ∧ complete (hmis_family_key (row rj).1.1) = Some k
          ∧ Age_Entered rj = Some a ∧ (a < 18)%Z)
       ∧ (∃ j rj,
            hmis_child_status relativedelta_years hmis !! j = Some rj
            ∧ complete (hmis_family_key (row rj).1.1) = Some k
            ∧ (Age_Entered rj = None
               ∨ ∃ a, Age_Entered rj = Some a ∧ (18 ≤ a)%Z)))
  ∧ (∀ i r k,
       cp_child_status cp !! i = Some r →
       complete (cp_family_key (row r).1.1) = Some k →
       With_Family (cp_generate_family_characteristics (cp_child_status cp))
         !! i = Some true
       ↔ (∃ j rj a,
            cp_child_status cp !! j = Some rj
            ∧ complete (cp_family_key (row rj).1.1) = Some k
            ∧ Age_Entered rj = Some a ∧ (a < 18)%Z)
         ∧ (∃ j rj,
              cp_child_status cp !! j = Some rj
              ∧ complete (cp_family_key (row rj).1.1) = Some k
              ∧ (Age_Entered rj = None
                 ∨ ∃ a, Age_Entered rj = Some a ∧ (18 ≤ a)%Z))).
Proof.
  split; intros i r k Hi Hk.
  - apply (with_family_by_age _ _ (λ r, hmis_family_key (row r).1.1) i r k);
      [apply status_row_hmis|done..].
  - apply (with_family_by_age _ _ (λ r, cp_family_key (row r).1.1) i r k);
      [apply status_row_cp|done..].
Qed.

Lemma with_family_by_age_entered_witness :
  With_Family (hmis_generate_family_characteristics
                 (hmis_child_status Scenario.years (Scenario.labelled).1)) !! 3
    = Some true
  ↔ (∃ j rj a,
       hmis_child_status Scenario.years (Scenario.labelled).1 !! j = Some rj
       ∧ complete (hmis_family_key (row rj).1.1)
         = Some [Str "X"; Timestamp 20200101]
       ∧ Age_Entered rj = Some a ∧ (a < 18)%Z)
    ∧ (∃ j rj,
         hmis_child_status Scenario.years (Scenario.labelled).1 !! j = Some rj
         ∧ complete (hmis_family_key (row rj).1.1)
           = Some [Str "X"; Timestamp 20200101]
         ∧ (Age_Entered rj = None
            ∨ ∃ a, Age_Entered rj = Some a ∧ (18 ≤ a)%Z)).
Proof.
  apply (proj1 (with_family_by_age_entered Scenario.years
                  (Scenario.labelled).1 (Scenario.labelled).2)
           3 (mk_status (mk_hmis 7 (Some (Str "X")) (Some (Timestamp 20200101))
                           (Some (Timestamp 19800101)), Some 2, Some 0)
                (Some 40%Z) false true));
    vm_compute; reflexivity.
Defined.

(** X20: through the whole of [get_hmis_cp]: when the enrolment group of
    an HMIS row (family site and program start date, both present) has
    a row of known age under 18 and a row of age 18 or more or of unknown
    age, ['Family?'] is true on that row and on every HMIS row with the
    same family label, whatever group those are in. *)
Theorem get_hmis_cp_flags_whole_family
    (relativedelta_years : scalar → scalar → Z)
    (hmis : list hmis_row) (cp : list cp_row)
    (hd cd : list link_plus_row) (m : list match_row) i r k :
  (get_hmis_cp relativedelta_years hmis cp hd cd m).1.1 !! i = Some r →
  complete (hmis_family_key (row r).1.1) = Some k →
  (∃ j rj a,
     (get_hmis_cp relativedelta_years hmis cp hd cd m).1.1 !! j = Some rj
     ∧ complete (hmis_family_key (row rj).1.1) = Some k
     ∧ Age_Entered rj = Some a ∧ (a < 18)%Z) →
  (∃ j rj,
     (get_hmis_cp relativedelta_years hmis cp hd cd m).1.1 !! j = Some rj
     ∧ complete (hmis_family_key (row rj).1.1) = Some k
     ∧ (Age_Entered rj = None ∨ ∃ a, Age_Entered rj = Some a ∧ (18 ≤ a)%Z)) →
  ∀ i' r',
    (get_hmis_cp relativedelta_years hmis cp hd cd m).1.1 !! i' = Some r' →
    (row r').2 = (row r).2 →
    Family (get_hmis_cp relativedelta_years hmis cp hd cd m).1.2 !! i'
    = Some true.
Proof.
  unfold get_hmis_cp. cbn [fst snd]. intros Hi Hk Hchild Hadult i' r' Hi' Hl.
  assert (Hlabel : is_Some (row r).2).
  { unfold hmis_child_status in Hi. rewrite list_lookup_fmap in Hi.
    destruct (_ !! i) as [x|] eqn:Hx; [|done]. simpl in Hi. simplify_eq.
    cbn [row]. apply list_elem_of_lookup_2 in Hx.
    rewrite get_client_family_ids_rows in Hx. cbn [fst] in Hx.
    apply list_elem_of_fmap in Hx as (x0 & -> & Hx0). cbn [snd].
    apply label_dict_is_Some; [apply closed_G_families|].
    by apply nodes_G_families, record_node_hmis. }
  destruct Hlabel as [label Hlabel].
  unfold hmis_generate_family_characteristics.
  destruct (family_column _ Child Adult (λ r, (row r).2)
              (λ r, hmis_family_key (row r).1.1) i' r' label Hi')
    as (b & Hbeq & Hb); [by rewrite Hl|].
  transitivity (Some b); [exact Hbeq|].
  f_equal. apply Hb. exists i, r. repeat split; [done..|].
  apply (with_family_by_age _ _ (λ r, hmis_family_key (row r).1.1) i r k);
    [apply status_row_hmis|done..].
Qed.

Lemma get_hmis_cp_flags_whole_family_witness :
  Family (get_hmis_cp Scenario.years Scenario.hmis Scenario.cp
            Scenario.hmis_duplicates Scenario.cp_duplicates
            Scenario.matching).1.2 !! 1
  = Some true.
Proof.
  apply (get_hmis_cp_flags_whole_family Scenario.years Scenario.hmis
           Scenario.cp Scenario.hmis_duplicates Scenario.cp_duplicates
           Scenario.matching
           0 (mk_status (mk_hmis 100 (Some (Str "X"))
                           (Some (Timestamp 20200101))
                           (Some (Timestamp 20150101)), Some 0, Some 0)
                (Some 5%Z) true false)
           [Str "X"; Timestamp 20200101])
    with (r' := mk_status (mk_hmis 101 None None None, Some 0, Some 0)
                  None false true).
  - vm_compute. reflexivity.
  - reflexivity.
  - exists 0, (mk_status (mk_hmis 100 (Some (Str "X"))
                            (Some (Timestamp 20200101))
                            (Some (Timestamp 20150101)), Some 0, Some 0)
                 (Some 5%Z) true false), 5%Z.
    split; [vm_compute; reflexivity|]. split; [reflexivity|].
    split; [reflexivity|done].
  - exists 3, (mk_status (mk_hmis 7 (Some (Str "X"))
                            (Some (Timestamp 20200101))
                            (Some (Timestamp 19800101)), Some 2, Some 0)
                 (Some 40%Z) false true).
    split; [vm_compute; reflexivity|]. split; [reflexivity|].
    right. exists 40%Z. split; [reflexivity|done].
  - vm_compute. reflexivity.
  - reflexivity.
Defined.

(** * Merging the labels back, when a row may lack its raw identifier *)
Section left_merge_facts.
Context {R K B : Type} `{EqDecision K}.
Implicit Types (key : R → K) (left : list R) (right : list (K * B)).


End left_merge_facts.

Section missing_facts.
Implicit Types (d : gmap Missing.ident nat) (g : list Missing.ident)
               (gs : list (list Missing.ident)) (k : Missing.ident).







Section graphs.
Variables (hmis : list Missing.hmis_record) (cp : list Missing.cp_record)
          (hd cd : list link_plus_row) (m : list match_row).






End graphs.
End missing_facts.



